(** * BackFillCurrentEnvironmentId1686829426671

    A shallow embedding of the data migration
    [server/data-migrations/1686829426671-BackFillCurrentEnvironmentId.ts]
    and the properties of its forward ([up] / [backFillNewColumn]) and
    backward ([down]) entry points.

    The migration talks to the relational store through TypeORM's
    [EntityManager].  Three kinds of calls occur in the source:

    - [await manager.find(Organization, {relations: ['appEnvironments']})]
    - [await manager.find(App, {relations: ['appVersions']})]
    - [manager.update(AppVersion, {id}, {currentEnvironmentId})], whose
      promise is dropped (the call is an expression statement).

    The first two are awaited, the third is not.  The embedding keeps that
    difference: an update is put in flight when the call is made and reaches
    the store later.  How much later is left open (a parameter of the
    development), so that every theorem holds whatever the timing is.
    [up] itself awaits the promise of [backFillNewColumn]; that [await] is
    one more point at which the store may work off writes in flight. *)

From Stdlib Require Import String List Bool Arith Lia.
Import ListNotations.
Local Open Scope string_scope.
Local Open Scope list_scope.

(** ** Entities *)

(** Identifiers are the string primary keys of the entity tables. *)
Definition Id : Type := string.

(** Modelled from the spec: the entity class [AppEnvironment]
    (src/entities/app_environments.entity is not part of the sources at hand).
    An environment belongs to one organization and carries the flag that
    marks it as that organization's default one. *)
Module AppEnvironment.
Record t : Type := mk
  { id : Id;
    organizationId : Id;
    name : string;
    isDefault : bool }.
End AppEnvironment.

(** Modelled from the spec: the entity class [Organization]
    (src/entities/organization.entity is imported by the migration but is not
    part of the sources at hand).  [appEnvironments] is the relation the
    migration loads with the organization. *)
Module Organization.
Record t : Type := mk
  { id : Id;
    name : string;
    appEnvironments : list AppEnvironment.t }.
End Organization.

(** Modelled from the spec: the entity class [AppVersion]
    (src/entities/app_version.entity is imported by the migration but is not
    part of the sources at hand).  [currentEnvironmentId] is the new column,
    empty ([None], SQL NULL) until it is filled. *)
Module AppVersion.
Record t : Type := mk
  { id : Id;
    appId : Id;
    name : string;
    currentEnvironmentId : option Id }.

Definition set_currentEnvironmentId (e : Id) (v : t) : t :=
  {| id := id v; appId := appId v; name := name v;
     currentEnvironmentId := Some e |}.

(** Every column but [currentEnvironmentId]. *)
Definition other_columns (v : t) : Id * Id * string :=
  (id v, appId v, name v).
End AppVersion.

(** Modelled from the spec: the entity class [App]
    (src/entities/app.entity is imported by the migration but is not part of
    the sources at hand).  [appVersions] is the relation the migration loads
    with the app; [organizationId] is the owning tenant. *)
Module App.
Record t : Type := mk
  { id : Id;
    organizationId : Id;
    name : string;
    appVersions : list AppVersion.t }.

Definition with_appVersions (vs : list AppVersion.t) (a : t) : t :=
  {| id := id a; organizationId := organizationId a; name := name a;
     appVersions := vs |}.
End App.

(** ** The store behind the [EntityManager] *)

(** The rows the migration can reach, as the object graph TypeORM hands out:
    organizations with their environments, apps with their versions.  The
    order of the lists is the order in which [manager.find] returns the rows
    (the source gives no [order] option). *)
Record Store : Type := mkStore
  { organizations : list Organization.t;
    apps : list App.t }.

(** [manager.update(AppVersion, { id }, { currentEnvironmentId })] as the
    store sees it: the criteria and the partial entity. *)
Record UpdateQuery : Type := mkUpdate
  { criteria_id : Id;
    set_to : Id }.

Definition update_row (w : UpdateQuery) (v : AppVersion.t) : AppVersion.t :=
  if String.eqb (AppVersion.id v) (criteria_id w)
  then AppVersion.set_currentEnvironmentId (set_to w) v
  else v.

(** UPDATE app_versions SET current_environment_id = .. WHERE id = .. *)
Definition apply_write (w : UpdateQuery) (s : Store) : Store :=
  {| organizations := organizations s;
     apps := map (fun a => App.with_appVersions
                             (map (update_row w) (App.appVersions a)) a)
                 (apps s) |}.

Definition apply_writes (ws : list UpdateQuery) (s : Store) : Store :=
  fold_left (fun s w => apply_write w s) ws s.

(** [manager.find(Organization, ...)] and [manager.find(App, ...)]: neither
    call has a [where] option, so each returns every row of its table. *)
Definition manager_find_Organization (s : Store) : list Organization.t :=
  organizations s.

Definition manager_find_App (s : Store) : list App.t :=
  apps s.

(** Every version row of the store, app by app. *)
Definition all_versions (s : Store) : list AppVersion.t :=
  flat_map App.appVersions (apps s).

(** ** The run-time world: store, writes in flight, observable trace *)

Inductive Event : Type :=
| FindOrganization
| FindApp
| ConsoleLog (appVersionId : Id)
| UpdateIssued (w : UpdateQuery).

Record World : Type := mkWorld
  { db : Store;
    inflight : list UpdateQuery;
    trace : list Event }.

(** A fresh run on store [s]. *)
Definition start (s : Store) : World :=
  {| db := s; inflight := []; trace := [] |}.

(** The store acknowledges the [k] oldest writes in flight (one query
    runner, hence first in, first out). *)
Definition acknowledge (k : nat) (w : World) : World :=
  {| db := apply_writes (firstn k (inflight w)) (db w);
     inflight := skipn k (inflight w);
     trace := trace w |}.

(** The store once every write in flight has been acknowledged. *)
Definition settled (w : World) : Store :=
  apply_writes (inflight w) (db w).

(** The only exception the source can throw by itself: reading [.id] of
    [undefined] in [productionEnvironment.id].  It is what the design calls
    the NoDefaultEnvironment failure. *)
Inductive Exception : Type :=
| TypeError_reading_id_of_undefined.

(** Computations of the async function: a world transformer that either
    returns or throws. *)
Definition M (A : Type) : Type := World -> World * (Exception + A).

Definition ret {A} (a : A) : M A := fun w => (w, inr a).

Definition throw {A} (e : Exception) : M A := fun w => (w, inl e).

Definition bind {A B} (m : M A) (k : A -> M B) : M B :=
  fun w =>
    match m w with
    | (w', inr a) => k a w'
    | (w', inl e) => (w', inl e)
    end.

Declare Scope js_scope.
Delimit Scope js_scope with js.
Notation "x <- m ;; k" := (bind m (fun x => k))
  (at level 100, m at next level, right associativity) : js_scope.
Notation "m ;; k" := (bind m (fun _ => k))
  (at level 100, right associativity) : js_scope.
Local Open Scope js_scope.

(** [for (const x of xs) { body }] *)
Fixpoint for_of {A} (xs : list A) (body : A -> M unit) : M unit :=
  match xs with
  | [] => ret tt
  | x :: xs' => body x ;; for_of xs' body
  end.

(** [Array.prototype.find]: the first element satisfying the predicate, or
    [undefined]. *)
Fixpoint Array_find {A} (p : A -> bool) (xs : list A) : option A :=
  match xs with
  | [] => None
  | x :: xs' => if p x then Some x else Array_find p xs'
  end.

(** [productionEnvironment.id] *)
Definition property_id (productionEnvironment : option AppEnvironment.t)
  : M Id :=
  match productionEnvironment with
  | Some e => ret (AppEnvironment.id e)
  | None => throw TypeError_reading_id_of_undefined
  end.

(** [console.log('Updating app version =>', appVersion.id)] *)
Definition console_log (appVersionId : Id) : M unit :=
  fun w =>
    ({| db := db w; inflight := inflight w;
        trace := trace w ++ [ConsoleLog appVersionId] |}, inr tt).

(** [manager.update(AppVersion, { id }, { currentEnvironmentId })] with the
    returned promise dropped: the write is issued and left in flight. *)
Definition manager_update_AppVersion (id currentEnvironmentId : Id)
  : M unit :=
  fun w =>
    let wr := mkUpdate id currentEnvironmentId in
    ({| db := db w; inflight := inflight w ++ [wr];
        trace := trace w ++ [UpdateIssued wr] |}, inr tt).

Section Migration.

(** How many of the writes in flight the store has acknowledged by the
    time an awaited query gets its rows.  Nothing in the source fixes it. *)
Variable acked : World -> nat.

(** [await manager.find(...)]: control goes back to the event loop, the
    store works off some of the writes in flight, then answers. *)
Definition await {A} (ev : Event) (find : Store -> A) : M A :=
  fun w =>
    let w' := acknowledge (acked w) w in
    ({| db := db w'; inflight := inflight w';
        trace := trace w' ++ [ev] |}, inr (find (db w'))).

Definition backFillNewColumn : M unit :=
  organizations <- await FindOrganization manager_find_Organization ;;
  for_of organizations (fun organization =>
    let productionEnvironment :=
      Array_find AppEnvironment.isDefault
                 (Organization.appEnvironments organization) in
    apps <- await FindApp manager_find_App ;;
    for_of apps (fun app =>
      for_of (App.appVersions app) (fun appVersion =>
        console_log (AppVersion.id appVersion) ;;
        currentEnvironmentId <- property_id productionEnvironment ;;
        manager_update_AppVersion (AppVersion.id appVersion)
                                  currentEnvironmentId))).

(** The body of the outer loop (lines 19 to 35) and the two inner loops
    (lines 24 to 35) under names of their own, for the lemmas below;
    [backFillNewColumn] unfolds to them. *)
Definition write_versions
    (productionEnvironment : option AppEnvironment.t)
    (apps : list App.t) : M unit :=
  for_of apps (fun app =>
    for_of (App.appVersions app) (fun appVersion =>
      console_log (AppVersion.id appVersion) ;;
      currentEnvironmentId <- property_id productionEnvironment ;;
      manager_update_AppVersion (AppVersion.id appVersion)
                                currentEnvironmentId)).

Definition pass (organization : Organization.t) : M unit :=
  let productionEnvironment :=
    Array_find AppEnvironment.isDefault
               (Organization.appEnvironments organization) in
  apps <- await FindApp manager_find_App ;;
  write_versions productionEnvironment apps.

(** [await f(...)] on the promise of an async function of the class: the
    body runs to its end (or to its exception), control goes back to the
    event loop, the store works off some of the writes in flight, and the
    caller goes on with the result (or the exception is thrown again). *)
Definition await_call {A} (body : M A) : M A :=
  fun w =>
    let w' := fst (body w) in
    (acknowledge (acked w') w', snd (body w)).

(** [up]: [await this.backFillNewColumn(queryRunner.manager)] *)
Definition up : M unit := await_call backFillNewColumn.

End Migration.

(** [down]: the body is empty. *)
Definition down : M unit := ret tt.

(** ** What a run does, as a function of the rows it loads *)

(** The identifiers of the version rows, in the order the nested loops of
    the source visit them. *)
Definition version_ids (s : Store) : list Id :=
  map AppVersion.id (all_versions s).

(** Line 19 of the source, for one loaded organization. *)
Definition productionEnvironment (organization : Organization.t)
  : option AppEnvironment.t :=
  Array_find AppEnvironment.isDefault
             (Organization.appEnvironments organization).

(** The number of default-flagged environments of an organization. *)
Definition default_count (organization : Organization.t) : nat :=
  length (filter AppEnvironment.isDefault
                 (Organization.appEnvironments organization)).

(** The writes among a list of events, oldest first. *)
Definition issued (evs : list Event) : list UpdateQuery :=
  flat_map (fun ev => match ev with UpdateIssued w => [w] | _ => [] end) evs.

(** The events of the two inner loops for one organization: a log line and
    an update per version, or a log line and the exception at the first
    version when no default environment was found. *)
Definition pass_events (pe : option AppEnvironment.t) (ids : list Id)
  : list Event * (Exception + unit) :=
  match pe with
  | Some e =>
      (flat_map (fun i => [ConsoleLog i;
                           UpdateIssued (mkUpdate i (AppEnvironment.id e))])
                ids,
       inr tt)
  | None =>
      match ids with
      | [] => ([], inr tt)
      | i :: _ => ([ConsoleLog i], inl TypeError_reading_id_of_undefined)
      end
  end.

(** The events of the outer loop, organization after organization, up to
    the first exception. *)
Fixpoint passes (orgs : list Organization.t) (ids : list Id)
  : list Event * (Exception + unit) :=
  match orgs with
  | [] => ([], inr tt)
  | o :: rest =>
      match pass_events (productionEnvironment o) ids with
      | (evs, inr _) =>
          let (evs', r) := passes rest ids in (FindApp :: evs ++ evs', r)
      | (evs, inl ex) => (FindApp :: evs, inl ex)
      end
  end.

(** [f] applied to every version row. *)
Definition map_versions (f : AppVersion.t -> AppVersion.t) (s : Store)
  : Store :=
  {| organizations := organizations s;
     apps := map (fun a => App.with_appVersions
                             (map f (App.appVersions a)) a) (apps s) |}.

(** Everything in the store except the [currentEnvironmentId] column:
    the organizations with their environments, and the apps with the other
    columns of their versions, row by row. *)
Definition app_frame (a : App.t)
  : Id * Id * string * list (Id * Id * string) :=
  (App.id a, App.organizationId a, App.name a,
   map AppVersion.other_columns (App.appVersions a)).

Definition frame (s : Store)
  : list Organization.t * list (Id * Id * string * list (Id * Id * string)) :=
  (organizations s, map app_frame (apps s)).

(** The world after the events [evs] happened with nothing acknowledged. *)
Definition emit (evs : list Event) (w : World) : World :=
  {| db := db w;
     inflight := inflight w ++ issued evs;
     trace := trace w ++ evs |}.

(** The value a version row holds after the writes [ws], oldest first. *)
Definition row_after (ws : list UpdateQuery) (v : AppVersion.t)
  : AppVersion.t :=
  fold_left (fun v w => update_row w v) ws v.

(** The value of the last write of [ws] that selects the row [i]. *)
Fixpoint last_match (i : Id) (ws : list UpdateQuery) : option Id :=
  match ws with
  | [] => None
  | w :: ws' =>
      match last_match i ws' with
      | Some e => Some e
      | None => if String.eqb i (criteria_id w) then Some (set_to w) else None
      end
  end.

(** ** Runs *)

(** A run of the forward entry point on the store [s], up to the moment the
    promise returned by [up] is resolved or rejected. *)
Definition run (acked : World -> nat) (s : Store)
  : World * (Exception + unit) :=
  up acked (start s).

(** The store the run leads to: the store once the writes the run left in
    flight have all been acknowledged. *)
Definition final_store (acked : World -> nat) (s : Store) : Store :=
  settled (fst (run acked s)).

(** The version rows of the apps owned by an organization. *)
Definition versions_of_organization (o : Organization.t) (s : Store)
  : list AppVersion.t :=
  flat_map App.appVersions
    (filter (fun a => String.eqb (App.organizationId a) (Organization.id o))
            (apps s)).

(** The writes of one organization's turn over the version rows [ids]. *)
Definition writes_of_pass (o : Organization.t) (ids : list Id)
  : list UpdateQuery :=
  match productionEnvironment o with
  | Some e => map (fun i => mkUpdate i (AppEnvironment.id e)) ids
  | None => []
  end.

(** [e] is the first default-flagged record of the list [envs]. *)
Definition first_default (e : AppEnvironment.t) (envs : list AppEnvironment.t)
  : Prop :=
  exists pre post,
    envs = pre ++ e :: post /\
    forallb (fun x => negb (AppEnvironment.isDefault x)) pre = true /\
    AppEnvironment.isDefault e = true.

(** ** Concrete stores *)

Module Scenario.

Definition E1 := AppEnvironment.mk "E1" "O1" "production" true.
Definition E2 := AppEnvironment.mk "E2" "O1" "staging" false.
Definition E3 := AppEnvironment.mk "E3" "O2" "production" true.

Definition O1 := Organization.mk "O1" "first tenant" [E1; E2].
Definition O2 := Organization.mk "O2" "second tenant" [E3].

Definition V1 := AppVersion.mk "V1" "A1" "v1" None.
Definition V2 := AppVersion.mk "V2" "A1" "v2" None.
Definition V3 := AppVersion.mk "V3" "A2" "v1" None.

Definition A1 := App.mk "A1" "O1" "first app" [V1; V2].
Definition A2 := App.mk "A2" "O2" "second app" [V3].

(** [O1] owns [E1] (default), [E2] and the app [A1] with versions [V1] and
    [V2]; [O2] owns [E3] (default) and no app. *)
Definition store : Store :=
  {| organizations := [O1; O2]; apps := [A1] |}.

(** The same with [O2] owning the app [A2] with version [V3]. *)
Definition two_tenants : Store :=
  {| organizations := [O1; O2]; apps := [A1; A2] |}.

(** One tenant, one app, one version. *)
Definition single : Store :=
  {| organizations := [O1]; apps := [App.mk "A1" "O1" "first app" [V1]] |}.

(** An organization whose only environment is not flagged default, and
    an app without versions. *)
Definition O0 :=
  Organization.mk "O0" "no default" [AppEnvironment.mk "E0" "O0" "staging" false].

Definition no_versions : Store :=
  {| organizations := [O0]; apps := [App.mk "A0" "O0" "empty app" []] |}.

(** [O1] with its default, then [O0] without one, and the app [A1]. *)
Definition missing_default : Store :=
  {| organizations := [O1; O0]; apps := [A1] |}.

(** An organization with two default-flagged environments. *)
Definition E4 := AppEnvironment.mk "E4" "O3" "production" true.
Definition E5 := AppEnvironment.mk "E5" "O3" "development" false.
Definition E6 := AppEnvironment.mk "E6" "O3" "staging" true.
Definition O3 := Organization.mk "O3" "two defaults" [E5; E4; E6].

Definition two_defaults : Store :=
  {| organizations := [O3]; apps := [App.mk "A3" "O3" "third app" [V1]] |}.

(** Schedules: nothing is acknowledged before the run completes, and
    everything in flight is acknowledged at every [await]. *)
Definition deferred : World -> nat := fun _ => 0.
Definition eager : World -> nat := fun w => length (inflight w).

End Scenario.

(** ** Reading a trace *)

(** The identifiers printed by [console.log], oldest first. *)
Definition logged (evs : list Event) : list Id :=
  flat_map (fun ev => match ev with ConsoleLog i => [i] | _ => [] end) evs.

(** The number of [manager.find(App, ...)] queries. *)
Definition app_loads (evs : list Event) : nat :=
  length (filter (fun ev => match ev with FindApp => true | _ => false end)
                 evs).

(** The number of [manager.find(Organization, ...)] queries. *)
Definition organization_loads (evs : list Event) : nat :=
  length (filter (fun ev => match ev with
                            | FindOrganization => true
                            | _ => false
                            end) evs).

(** Every update of the trace comes directly after the log line of the row
    it selects. *)
Fixpoint logged_before_update (evs : list Event) : bool :=
  match evs with
  | [] => true
  | UpdateIssued _ :: _ => false
  | ConsoleLog i :: UpdateIssued w :: rest =>
      String.eqb i (criteria_id w) && logged_before_update rest
  | _ :: rest => logged_before_update rest
  end.

(** ** Lemmas on the store *)

Section StoreFacts.

Lemma update_row_id w v : AppVersion.id (update_row w v) = AppVersion.id v.
Proof. unfold update_row. now destruct (String.eqb _ _). Qed.

Lemma update_row_other_columns w v :
  AppVersion.other_columns (update_row w v) = AppVersion.other_columns v.
Proof. unfold update_row. now destruct (String.eqb _ _). Qed.

Lemma map_versions_id_ext f s :
  (forall v, In v (all_versions s) -> f v = v) -> map_versions f s = s.
Proof.
  destruct s as [os aps]. unfold map_versions, all_versions. simpl.
  intros H. f_equal.
  induction aps as [|a aps IH]; simpl in *; [reflexivity|].
  rewrite IH by (intros; apply H; apply in_or_app; now right).
  f_equal. destruct a as [i o n vs]. unfold App.with_appVersions. simpl in *.
  f_equal. rewrite <- (map_id vs) at 2. apply map_ext_in.
  intros v Hv. apply H. apply in_or_app. now left.
Qed.

Lemma map_versions_ext_in f g s :
  (forall v, In v (all_versions s) -> f v = g v) ->
  map_versions f s = map_versions g s.
Proof.
  destruct s as [os aps]. unfold map_versions, all_versions. simpl.
  intros H. f_equal.
  induction aps as [|a aps IH]; simpl in *; [reflexivity|].
  rewrite IH by (intros; apply H; apply in_or_app; now right).
  f_equal. f_equal. apply map_ext_in.
  intros v Hv. apply H. apply in_or_app. now left.
Qed.

Lemma map_versions_compose f g s :
  map_versions f (map_versions g s) = map_versions (fun v => f (g v)) s.
Proof.
  unfold map_versions. simpl. f_equal. rewrite map_map.
  apply map_ext. intros a. unfold App.with_appVersions. simpl.
  now rewrite map_map.
Qed.

Lemma apply_write_map_versions w s :
  apply_write w s = map_versions (update_row w) s.
Proof. reflexivity. Qed.

Lemma apply_writes_map_versions ws s :
  apply_writes ws s = map_versions (row_after ws) s.
Proof.
  revert s. induction ws as [|w ws IH]; intros s.
  - simpl. symmetry. now apply map_versions_id_ext.
  - simpl. unfold apply_writes in IH. rewrite IH.
    rewrite apply_write_map_versions, map_versions_compose. reflexivity.
Qed.

Lemma apply_writes_app ws1 ws2 s :
  apply_writes (ws1 ++ ws2) s = apply_writes ws2 (apply_writes ws1 s).
Proof. unfold apply_writes. apply fold_left_app. Qed.

Lemma frame_map_versions f s :
  (forall v, AppVersion.other_columns (f v) = AppVersion.other_columns v) ->
  frame (map_versions f s) = frame s.
Proof.
  intros H. unfold frame, map_versions. simpl. f_equal.
  rewrite map_map. apply map_ext. intros a.
  unfold app_frame, App.with_appVersions. simpl. f_equal.
  rewrite map_map. now apply map_ext.
Qed.

Lemma row_after_other_columns ws v :
  AppVersion.other_columns (row_after ws v) = AppVersion.other_columns v.
Proof.
  revert v. induction ws as [|w ws IH]; intros v; simpl; [reflexivity|].
  unfold row_after in IH. now rewrite IH, update_row_other_columns.
Qed.

Lemma frame_apply_writes ws s : frame (apply_writes ws s) = frame s.
Proof.
  rewrite apply_writes_map_versions. apply frame_map_versions.
  intros v. apply row_after_other_columns.
Qed.

Lemma version_ids_frame s :
  version_ids s =
  flat_map (fun af => map (fun c => fst (fst c)) (snd af)) (snd (frame s)).
Proof.
  unfold version_ids, all_versions, frame. simpl.
  induction (apps s) as [|a aps IH]; simpl; [reflexivity|].
  rewrite map_app, IH, map_map. reflexivity.
Qed.

Lemma frame_version_ids s1 s2 :
  frame s1 = frame s2 -> version_ids s1 = version_ids s2.
Proof. intros H. now rewrite !version_ids_frame, H. Qed.

Lemma frame_organizations s1 s2 :
  frame s1 = frame s2 -> organizations s1 = organizations s2.
Proof. unfold frame. congruence. Qed.

End StoreFacts.

(** ** Lemmas on rows and writes *)

Section RowFacts.

Lemma set_currentEnvironmentId_update_row e w v :
  AppVersion.set_currentEnvironmentId e (update_row w v) =
  AppVersion.set_currentEnvironmentId e v.
Proof. unfold update_row. now destruct (String.eqb _ _). Qed.

Lemma row_after_id ws v : AppVersion.id (row_after ws v) = AppVersion.id v.
Proof.
  revert v. induction ws as [|w ws IH]; intros v; simpl; [reflexivity|].
  unfold row_after in IH. now rewrite IH, update_row_id.
Qed.

(** A row holds the value of the last write that selected it, and its old
    value when no write did. *)
Lemma row_after_last_match ws v :
  row_after ws v =
  match last_match (AppVersion.id v) ws with
  | Some e => AppVersion.set_currentEnvironmentId e v
  | None => v
  end.
Proof.
  revert v. induction ws as [|w ws IH]; intros v; simpl; [reflexivity|].
  unfold row_after in IH. rewrite IH, update_row_id.
  destruct (last_match (AppVersion.id v) ws) as [e|].
  - apply set_currentEnvironmentId_update_row.
  - unfold update_row. now destruct (String.eqb _ _).
Qed.

Lemma row_after_idempotent ws v :
  row_after ws (row_after ws v) = row_after ws v.
Proof.
  rewrite (row_after_last_match ws (row_after ws v)), row_after_id.
  rewrite (row_after_last_match ws v).
  now destruct (last_match (AppVersion.id v) ws).
Qed.

Lemma apply_writes_idempotent ws s :
  apply_writes ws (apply_writes ws s) = apply_writes ws s.
Proof.
  rewrite !apply_writes_map_versions, map_versions_compose.
  apply map_versions_ext_in. intros v _. apply row_after_idempotent.
Qed.

Lemma last_match_app i ws1 ws2 :
  last_match i (ws1 ++ ws2) =
  match last_match i ws2 with
  | Some e => Some e
  | None => last_match i ws1
  end.
Proof.
  induction ws1 as [|w ws1 IH]; simpl.
  - now destruct (last_match i ws2).
  - rewrite IH. now destruct (last_match i ws2).
Qed.

Lemma last_match_same_value e i ids :
  In i ids -> last_match i (map (fun j => mkUpdate j e) ids) = Some e.
Proof.
  induction ids as [|j ids IH]; simpl; [tauto|].
  intros [->|Hin].
  - rewrite String.eqb_refl.
    destruct (last_match i (map (fun j => mkUpdate j e) ids)) eqn:E;
      [|reflexivity].
    clear IH. induction ids as [|k ids IH]; simpl in E; [discriminate|].
    destruct (last_match i (map (fun j => mkUpdate j e) ids)).
    + now apply IH.
    + destruct (String.eqb i k); congruence.
  - now rewrite IH.
Qed.

End RowFacts.

(** ** Lemmas on worlds and on the loops *)

Section WorldFacts.

Lemma issued_app evs1 evs2 : issued (evs1 ++ evs2) = issued evs1 ++ issued evs2.
Proof. unfold issued. apply flat_map_app. Qed.

Lemma emit_nil w : emit [] w = w.
Proof. destruct w. unfold emit. simpl. now rewrite !app_nil_r. Qed.

Lemma emit_app evs1 evs2 w : emit evs2 (emit evs1 w) = emit (evs1 ++ evs2) w.
Proof. unfold emit. simpl. now rewrite issued_app, !app_assoc. Qed.

Lemma settled_emit evs w :
  settled (emit evs w) = apply_writes (issued evs) (settled w).
Proof. unfold settled, emit. simpl. apply apply_writes_app. Qed.

Lemma settled_acknowledge k w : settled (acknowledge k w) = settled w.
Proof.
  unfold settled, acknowledge. simpl.
  now rewrite <- apply_writes_app, firstn_skipn.
Qed.

Lemma frame_db_acknowledge k w : frame (db (acknowledge k w)) = frame (db w).
Proof. unfold acknowledge. simpl. apply frame_apply_writes. Qed.

Lemma frame_settled w : frame (settled w) = frame (db w).
Proof. apply frame_apply_writes. Qed.

(** The innermost loop, over the versions of one app. *)
Lemma versions_loop pe vs w :
  for_of vs (fun appVersion =>
    console_log (AppVersion.id appVersion) ;;
    currentEnvironmentId <- property_id pe ;;
    manager_update_AppVersion (AppVersion.id appVersion)
                              currentEnvironmentId) w =
  (emit (fst (pass_events pe (map AppVersion.id vs))) w,
   snd (pass_events pe (map AppVersion.id vs))).
Proof.
  revert w. induction vs as [|v vs IH]; intros w.
  - simpl. unfold ret. destruct pe; simpl; now rewrite emit_nil.
  - destruct pe as [e|].
    + cbn [for_of]. unfold bind at 1. simpl. simpl in IH. rewrite IH.
      unfold emit. simpl. now rewrite <- !app_assoc.
    + cbn. destruct w; unfold emit; simpl. now rewrite app_nil_r.
Qed.

(** The two inner loops, over the versions of every loaded app. *)
Lemma write_versions_spec pe aps w :
  let ids := map AppVersion.id (flat_map App.appVersions aps) in
  write_versions pe aps w =
  (emit (fst (pass_events pe ids)) w, snd (pass_events pe ids)).
Proof.
  revert w. induction aps as [|a aps IH]; intros w.
  - cbn. unfold ret. destruct pe; simpl; now rewrite emit_nil.
  - unfold write_versions in *. cbn [for_of flat_map]. unfold bind at 1.
    rewrite versions_loop, map_app. destruct pe as [e|].
    + cbn [pass_events snd]. cbn zeta in IH. rewrite IH, emit_app.
      simpl. now rewrite flat_map_app.
    + destruct (App.appVersions a) as [|v vs]; [|reflexivity].
      cbn [map pass_events fst snd app]. rewrite emit_nil. apply IH.
Qed.

End WorldFacts.

Section RunFacts.

Variable acked : World -> nat.

Lemma backFillNewColumn_unfold :
  backFillNewColumn acked =
  (organizations <- await acked FindOrganization manager_find_Organization ;;
   for_of organizations (pass acked)).
Proof. reflexivity. Qed.

Lemma await_spec {A} ev (find : Store -> A) w :
  issued [ev] = [] ->
  await acked ev find w =
  (emit [ev] (acknowledge (acked w) w),
   inr (find (db (acknowledge (acked w) w)))).
Proof.
  intros H. unfold await, emit. rewrite H, app_nil_r. reflexivity.
Qed.

(** One turn of the outer loop. *)
Lemma pass_spec o w :
  let w1 := acknowledge (acked w) w in
  let r := pass_events (productionEnvironment o) (version_ids (db w1)) in
  pass acked o w = (emit (FindApp :: fst r) w1, snd r).
Proof.
  cbn zeta. unfold pass, bind. rewrite await_spec by reflexivity.
  unfold manager_find_App. rewrite write_versions_spec, emit_app.
  reflexivity.
Qed.

(** The outer loop: its outcome, its trace and the store it leads to are
    those of [passes], whatever was acknowledged when. *)
Lemma organizations_loop orgs w :
  let r := passes orgs (version_ids (db w)) in
  exists w',
    for_of orgs (pass acked) w = (w', snd r) /\
    trace w' = trace w ++ fst r /\
    settled w' = apply_writes (issued (fst r)) (settled w) /\
    frame (db w') = frame (db w).
Proof.
  cbn zeta. revert w. induction orgs as [|o orgs IH]; intros w.
  - exists w. cbn. now rewrite app_nil_r.
  - cbn [for_of passes]. unfold bind at 1. rewrite pass_spec.
    set (w1 := acknowledge (acked w) w).
    assert (Hids : version_ids (db w1) = version_ids (db w))
      by apply frame_version_ids, frame_db_acknowledge.
    rewrite Hids.
    destruct (pass_events (productionEnvironment o) (version_ids (db w)))
      as [evs [ex|[]]]; cbn [fst snd].
    + eexists. split; [reflexivity|]. repeat split.
      * rewrite settled_emit. unfold w1. now rewrite settled_acknowledge.
      * apply frame_db_acknowledge.
    + destruct (IH (emit (FindApp :: evs) w1)) as (w' & Hrun & Htr & Hst & Hfr).
      cbn [emit db] in Hrun, Hst, Hfr, Htr. rewrite Hids in Hrun, Hst, Htr.
      destruct (passes orgs (version_ids (db w))) as [evs' r].
      cbn [fst snd] in *. exists w'. split; [exact Hrun|]. repeat split.
      * rewrite Htr. cbn [trace emit]. unfold w1. cbn [acknowledge trace].
        now rewrite <- app_assoc.
      * rewrite Hst, settled_emit. unfold w1. rewrite settled_acknowledge.
        rewrite <- apply_writes_app, <- issued_app. reflexivity.
      * rewrite Hfr. apply frame_db_acknowledge.
Qed.

(** The whole of [backFillNewColumn], from any world. *)
Lemma backFillNewColumn_spec w :
  let r := passes (organizations (db w)) (version_ids (db w)) in
  exists w',
    backFillNewColumn acked w = (w', snd r) /\
    trace w' = trace w ++ FindOrganization :: fst r /\
    settled w' = apply_writes (issued (fst r)) (settled w) /\
    frame (db w') = frame (db w).
Proof.
  cbn zeta. rewrite backFillNewColumn_unfold. unfold bind.
  rewrite await_spec by reflexivity. unfold manager_find_Organization.
  set (w1 := acknowledge (acked w) w).
  assert (Hfr1 : frame (db w1) = frame (db w)) by apply frame_db_acknowledge.
  destruct (organizations_loop (organizations (db w1)) (emit [FindOrganization] w1))
    as (w' & Hrun & Htr & Hst & Hfr).
  cbn [emit db trace] in Hrun, Htr, Hst, Hfr.
  rewrite (frame_version_ids _ _ Hfr1) in Hrun, Htr, Hst.
  rewrite (frame_organizations _ _ Hfr1) in Hrun, Htr, Hst.
  rewrite (frame_organizations _ _ Hfr1).
  exists w'. split; [exact Hrun|]. repeat split.
  - rewrite Htr. unfold w1. cbn [acknowledge trace].
    now rewrite <- app_assoc.
  - rewrite Hst, settled_emit. unfold w1.
    rewrite settled_acknowledge. reflexivity.
  - now rewrite Hfr.
Qed.

End RunFacts.

(** ** Lemmas on the resolution of the default environment *)

Section ResolverFacts.

Lemma Array_find_none_filter {A} (p : A -> bool) xs :
  Array_find p xs = None <-> filter p xs = [].
Proof.
  induction xs as [|x xs IH]; simpl; [tauto|].
  destruct (p x); [split; discriminate|exact IH].
Qed.

Lemma Array_find_some_first {A} (p : A -> bool) xs x :
  Array_find p xs = Some x ->
  exists pre post,
    xs = pre ++ x :: post /\
    forallb (fun y => negb (p y)) pre = true /\ p x = true.
Proof.
  induction xs as [|y xs IH]; simpl; [discriminate|].
  destruct (p y) eqn:E.
  - intros [= ->]. now exists [], xs.
  - intros H. destruct (IH H) as (pre & post & -> & Hpre & Hx).
    exists (y :: pre), post. simpl. now rewrite E.
Qed.

Lemma default_count_zero o :
  default_count o = 0 <-> productionEnvironment o = None.
Proof.
  unfold default_count, productionEnvironment.
  rewrite Array_find_none_filter. apply length_zero_iff_nil.
Qed.

Lemma default_count_positive o :
  default_count o <> 0 -> exists e, productionEnvironment o = Some e.
Proof.
  rewrite default_count_zero.
  destruct (productionEnvironment o) as [e|]; [now exists e|congruence].
Qed.

End ResolverFacts.

(** ** Lemmas on [passes] *)

Section PassesFacts.

Lemma passes_app orgs1 orgs2 ids :
  passes (orgs1 ++ orgs2) ids =
  match passes orgs1 ids with
  | (evs, inr _) => let (evs', r) := passes orgs2 ids in (evs ++ evs', r)
  | (evs, inl ex) => (evs, inl ex)
  end.
Proof.
  induction orgs1 as [|o orgs1 IH]; simpl.
  - now destruct (passes orgs2 ids).
  - destruct (pass_events (productionEnvironment o) ids) as [evs [ex|[]]];
      [reflexivity|].
    rewrite IH. destruct (passes orgs1 ids) as [evs1 [ex|[]]];
      [reflexivity|].
    destruct (passes orgs2 ids) as [evs2 r]. now rewrite app_assoc.
Qed.

Lemma issued_pass_events_some e ids :
  issued (fst (pass_events (Some e) ids)) =
  map (fun i => mkUpdate i (AppEnvironment.id e)) ids.
Proof. simpl. induction ids as [|i ids IH]; simpl; now f_equal. Qed.

Lemma issued_pass_events o ids :
  snd (pass_events (productionEnvironment o) ids) = inr tt ->
  issued (fst (pass_events (productionEnvironment o) ids)) =
  writes_of_pass o ids.
Proof.
  unfold writes_of_pass. destruct (productionEnvironment o) as [e|].
  - intros _. apply issued_pass_events_some.
  - destruct ids; [reflexivity|discriminate].
Qed.

(** The writes of a run that completes: one turn per organization. *)
Lemma issued_passes orgs ids :
  snd (passes orgs ids) = inr tt ->
  issued (fst (passes orgs ids)) =
  flat_map (fun o => writes_of_pass o ids) orgs.
Proof.
  induction orgs as [|o orgs IH]; simpl; [reflexivity|].
  pose proof (issued_pass_events o ids) as Ho.
  destruct (pass_events (productionEnvironment o) ids) as [evs [ex|[]]];
    [discriminate|].
  destruct (passes orgs ids) as [evs' r]. simpl in *. intros ->.
  change (FindApp :: evs ++ evs') with ([FindApp] ++ evs ++ evs').
  rewrite !issued_app, Ho, IH by reflexivity. reflexivity.
Qed.

Lemma passes_all_default orgs ids :
  Forall (fun o => default_count o <> 0) orgs ->
  snd (passes orgs ids) = inr tt.
Proof.
  induction 1 as [|o orgs Ho _ IH]; simpl; [reflexivity|].
  destruct (default_count_positive o Ho) as [e ->]. simpl.
  now destruct (passes orgs ids).
Qed.

Lemma passes_no_versions orgs : passes orgs [] = (map (fun _ => FindApp) orgs, inr tt).
Proof.
  induction orgs as [|o orgs IH]; simpl; [reflexivity|].
  rewrite IH. now destruct (productionEnvironment o).
Qed.

Lemma all_versions_map_versions f s :
  all_versions (map_versions f s) = map f (all_versions s).
Proof.
  unfold all_versions, map_versions. simpl.
  induction (apps s) as [|a aps IH]; simpl; [reflexivity|].
  now rewrite IH, map_app.
Qed.

End PassesFacts.

(** ** The run on a fresh world *)

Section FreshRun.

Variable acked : World -> nat.

Lemma run_spec s :
  let r := passes (organizations s) (version_ids s) in
  exists w',
    run acked s = (w', snd r) /\
    trace w' = FindOrganization :: fst r /\
    settled w' = apply_writes (issued (fst r)) s /\
    frame (db w') = frame s.
Proof.
  cbn zeta. unfold run, up, await_call.
  destruct (backFillNewColumn_spec acked (start s))
    as (w' & Hrun & Htr & Hst & Hfr).
  rewrite Hrun. cbn [fst snd]. eexists. split; [reflexivity|].
  repeat split.
  - exact Htr.
  - rewrite settled_acknowledge. exact Hst.
  - rewrite frame_db_acknowledge. exact Hfr.
Qed.

Lemma run_outcome s :
  snd (run acked s) = snd (passes (organizations s) (version_ids s)).
Proof. destruct (run_spec s) as (w' & -> & _). reflexivity. Qed.

Lemma run_trace s :
  trace (fst (run acked s)) =
  FindOrganization :: fst (passes (organizations s) (version_ids s)).
Proof. destruct (run_spec s) as (w' & -> & H & _). exact H. Qed.

Lemma run_frame s :
  frame (db (fst (run acked s))) = frame s /\
  frame (final_store acked s) = frame s.
Proof.
  unfold final_store. destruct (run_spec s) as (w' & -> & _ & _ & Hfr).
  cbn [fst]. split; [exact Hfr|]. rewrite frame_settled. exact Hfr.
Qed.

Lemma final_store_spec s :
  final_store acked s =
  apply_writes (issued (fst (passes (organizations s) (version_ids s)))) s.
Proof.
  unfold final_store. destruct (run_spec s) as (w' & -> & _ & H & _). exact H.
Qed.

End FreshRun.

(** ** The frame is everything but the new column *)

Section FrameFacts.

Lemma app_eq_same_length {A} (l1 l2 r1 r2 : list A) :
  length l1 = length l2 -> l1 ++ r1 = l2 ++ r2 -> l1 = l2 /\ r1 = r2.
Proof.
  revert l2. induction l1 as [|x l1 IH]; intros [|y l2]; simpl;
    try discriminate; [tauto|].
  intros [= Hlen] [= -> Happ]. destruct (IH _ Hlen Happ) as [-> ->]. tauto.
Qed.

Lemma versions_eq vs1 vs2 :
  map AppVersion.other_columns vs1 = map AppVersion.other_columns vs2 ->
  map AppVersion.currentEnvironmentId vs1 =
  map AppVersion.currentEnvironmentId vs2 ->
  vs1 = vs2.
Proof.
  revert vs2. induction vs1 as [|v1 vs1 IH]; intros [|v2 vs2]; simpl;
    try discriminate; [reflexivity|].
  destruct v1, v2. unfold AppVersion.other_columns. simpl.
  intros [= -> -> -> H1] [= -> H2]. f_equal. now apply IH.
Qed.

(** Two stores with the same frame and the same values in the
    [currentEnvironmentId] column are the same store. *)
Lemma frame_complete s1 s2 :
  frame s1 = frame s2 ->
  map AppVersion.currentEnvironmentId (all_versions s1) =
  map AppVersion.currentEnvironmentId (all_versions s2) ->
  s1 = s2.
Proof.
  destruct s1 as [os1 aps1], s2 as [os2 aps2].
  unfold frame, all_versions. simpl. intros [= -> Haps] Hcur. f_equal.
  revert aps2 Haps Hcur.
  induction aps1 as [|a1 aps1 IH]; intros [|a2 aps2]; simpl;
    try discriminate; [reflexivity|].
  destruct a1 as [i1 o1 n1 vs1], a2 as [i2 o2 n2 vs2].
  unfold app_frame at 1 3. simpl. intros [= -> -> -> Hvs Hrest].
  rewrite !map_app. intros Hcur.
  apply app_eq_same_length in Hcur as [Hc1 Hc2].
  - rewrite (versions_eq _ _ Hvs Hc1). f_equal. now apply IH.
  - rewrite !length_map. rewrite <- (length_map AppVersion.other_columns vs1).
    rewrite Hvs. apply length_map.
Qed.

Lemma frame_other_columns s1 s2 :
  frame s1 = frame s2 ->
  map AppVersion.other_columns (all_versions s1) =
  map AppVersion.other_columns (all_versions s2).
Proof.
  assert (H : forall s, map AppVersion.other_columns (all_versions s) =
                        flat_map snd (snd (frame s))).
  { intros s. unfold all_versions, frame. simpl.
    induction (apps s) as [|a aps IH]; simpl; [reflexivity|].
    now rewrite map_app, IH. }
  intros Hfr. now rewrite !H, Hfr.
Qed.

Lemma in_versions_of_organization o s v :
  In v (versions_of_organization o s) -> In v (all_versions s).
Proof.
  unfold versions_of_organization, all_versions.
  rewrite !in_flat_map. intros (a & Ha & Hv).
  apply filter_In in Ha as [Ha _]. now exists a.
Qed.

End FrameFacts.

(** ** Further lemmas on the outer loop *)

Section LoopFacts.

Variable acked : World -> nat.

(** With no version row and nothing in flight, the loop over the
    organizations touches neither the store nor the queue of writes. *)
Lemma organizations_loop_no_versions orgs w :
  version_ids (db w) = [] -> inflight w = [] ->
  exists w',
    for_of orgs (pass acked) w = (w', inr tt) /\
    db w' = db w /\ inflight w' = [].
Proof.
  revert w. induction orgs as [|o orgs IH]; intros w Hids Hfl.
  - now exists w.
  - cbn [for_of]. unfold bind at 1. rewrite pass_spec.
    assert (Hw1 : acknowledge (acked w) w = w).
    { destruct w as [d f t]. simpl in Hfl. subst f. unfold acknowledge.
      simpl. now rewrite firstn_nil, skipn_nil. }
    rewrite Hw1, Hids.
    assert (Hev : pass_events (productionEnvironment o) [] = ([], inr tt))
      by now destruct (productionEnvironment o).
    rewrite Hev. cbn [fst snd].
    destruct (IH (emit [FindApp] w)) as (w' & Hrun & Hdb & Hfl');
      [exact Hids|simpl; now rewrite Hfl|].
    exists w'. now rewrite Hrun.
Qed.

(** When the loop completes, the writes of its last turn are all still
    in flight: nothing is awaited after they are issued. *)
Lemma organizations_loop_last_inflight before o w :
  snd (passes (before ++ [o]) (version_ids (db w))) = inr tt ->
  exists pre,
    inflight (fst (for_of (before ++ [o]) (pass acked) w)) =
    pre ++ writes_of_pass o (version_ids (db w)).
Proof.
  revert w. induction before as [|o' before IH]; intros w Hok.
  - cbn [app for_of]. unfold bind. rewrite pass_spec.
    assert (Hids : version_ids (db (acknowledge (acked w) w)) =
                   version_ids (db w))
      by apply frame_version_ids, frame_db_acknowledge.
    rewrite Hids. cbn [app passes] in Hok.
    pose proof (issued_pass_events o (version_ids (db w))) as Hiss.
    destruct (pass_events (productionEnvironment o) (version_ids (db w)))
      as [evs [ex|[]]]; [discriminate|].
    cbn [fst snd ret emit inflight acknowledge].
    exists (skipn (acked w) (inflight w)).
    change (issued (FindApp :: evs)) with (issued evs).
    now rewrite <- Hiss.
  - cbn [app for_of]. unfold bind at 1. rewrite pass_spec.
    assert (Hids : version_ids (db (acknowledge (acked w) w)) =
                   version_ids (db w))
      by apply frame_version_ids, frame_db_acknowledge.
    rewrite Hids. cbn [app passes] in Hok.
    destruct (pass_events (productionEnvironment o') (version_ids (db w)))
      as [evs [ex|[]]]; [discriminate|].
    cbn [fst snd].
    destruct (passes (before ++ [o]) (version_ids (db w))) as [evs' r] eqn:E.
    cbn [snd] in Hok. subst r.
    specialize (IH (emit (FindApp :: evs) (acknowledge (acked w) w))).
    cbn [emit db] in IH. rewrite Hids, E in IH. apply IH. reflexivity.
Qed.

Lemma backFillNewColumn_last_inflight s before last :
  organizations s = before ++ [last] ->
  snd (backFillNewColumn acked (start s)) = inr tt ->
  exists pre,
    inflight (fst (backFillNewColumn acked (start s))) =
    pre ++ writes_of_pass last (version_ids s).
Proof.
  intros Horgs Hok.
  destruct (backFillNewColumn_spec acked (start s)) as (w' & Hrun & _).
  rewrite Hrun in Hok. cbn [snd start db] in Hok. rewrite Horgs in Hok.
  rewrite backFillNewColumn_unfold. unfold bind.
  rewrite await_spec by reflexivity.
  assert (Hw : acknowledge (acked (start s)) (start s) = start s)
    by (unfold acknowledge, start; simpl;
        now rewrite firstn_nil, skipn_nil).
  rewrite Hw. unfold manager_find_Organization. cbn [start db].
  rewrite Horgs.
  apply (organizations_loop_last_inflight before last
           (emit [FindOrganization] (mkWorld s [] []))).
  exact Hok.
Qed.

Lemma first_without_default (orgs : list Organization.t) :
  (exists o, In o orgs /\ default_count o = 0) ->
  exists before o after,
    orgs = before ++ o :: after /\
    Forall (fun o' => default_count o' <> 0) before /\
    default_count o = 0.
Proof.
  induction orgs as [|o orgs IH]; intros (x & Hin & Hx); [destruct Hin|].
  destruct (Nat.eq_dec (default_count o) 0) as [Ho|Ho].
  - now exists [], o, orgs.
  - destruct Hin as [->|Hin]; [contradiction|].
    destruct IH as (before & y & after & -> & Hb & Hy); [now exists x|].
    exists (o :: before), y, after. repeat split; auto.
Qed.

Lemma passes_completed_default orgs ids o :
  snd (passes orgs ids) = inr tt -> In o orgs -> ids <> [] ->
  exists e, productionEnvironment o = Some e.
Proof.
  induction orgs as [|o' orgs IH]; simpl; [tauto|].
  intros Hok Hin Hids.
  destruct (productionEnvironment o') as [e|] eqn:E.
  - destruct Hin as [->|Hin]; [now exists e|].
    apply IH; auto. simpl in Hok. now destruct (passes orgs ids).
  - destruct ids; [congruence|discriminate].
Qed.

Lemma length_flat_map_constant {A B} (f : A -> list B) n xs :
  (forall x, In x xs -> length (f x) = n) ->
  length (flat_map f xs) = length xs * n.
Proof.
  induction xs as [|x xs IH]; simpl; [reflexivity|].
  intros H. rewrite length_app, IH, H; auto.
Qed.

End LoopFacts.

Section FreshRunFacts.

Variable acked : World -> nat.

Lemma acknowledge_nothing k w : inflight w = [] -> acknowledge k w = w.
Proof.
  destruct w as [d f t]. simpl. intros ->. unfold acknowledge. simpl.
  now rewrite firstn_nil, skipn_nil.
Qed.

Lemma backFillNewColumn_start s :
  backFillNewColumn acked (start s) =
  for_of (organizations s) (pass acked) (emit [FindOrganization] (start s)).
Proof.
  rewrite backFillNewColumn_unfold. unfold bind.
  rewrite await_spec by reflexivity.
  now rewrite acknowledge_nothing by reflexivity.
Qed.

Lemma run_unfold s :
  run acked s =
  await_call acked
    (for_of (organizations s) (pass acked)) (emit [FindOrganization] (start s)).
Proof.
  unfold run, up, await_call. now rewrite backFillNewColumn_start.
Qed.

Lemma run_no_versions s :
  all_versions s = [] ->
  exists w',
    run acked s = (w', inr tt) /\ db w' = s /\ inflight w' = [].
Proof.
  intros H. rewrite run_unfold. unfold await_call.
  destruct (organizations_loop_no_versions acked (organizations s)
              (emit [FindOrganization] (start s)))
    as (w' & Hrun & Hdb & Hfl).
  - cbn [emit db start]. unfold version_ids. now rewrite H.
  - reflexivity.
  - rewrite Hrun. cbn [fst snd]. exists w'.
    now rewrite acknowledge_nothing by exact Hfl.
Qed.

Lemma all_versions_nil s :
  Forall (fun a => App.appVersions a = []) (apps s) -> all_versions s = [].
Proof.
  unfold all_versions. induction 1 as [|a aps Ha _ IH]; simpl;
    [reflexivity|]. now rewrite Ha, IH.
Qed.

Lemma issued_find_only {A} (xs : list A) :
  issued (map (fun _ => FindApp) xs) = [].
Proof. induction xs; simpl; auto. Qed.

End FreshRunFacts.

(** * The claims *)

(** C1, on the code.  In the store of the scenario ([O1] with [E1]
    (default), [E2] and the app [A1] with versions [V1] and [V2]; [O2] with
    its default [E3] and no app), loaded in the order [O1], [O2], the run
    completes and leaves [V1] and [V2], the versions of the apps of [O1],
    with [E3], the default environment of [O2], and not with [E1], the only
    default-flagged environment of [O1]: the turn of [O2] loads every app,
    not the apps of [O2]. *)
Theorem backFill_scenario_versions_get_other_tenants_default
    (acked : World -> nat) :
  default_count Scenario.O1 = 1 /\
  productionEnvironment Scenario.O1 = Some Scenario.E1 /\
  snd (run acked Scenario.store) = inr tt /\
  versions_of_organization Scenario.O1 (final_store acked Scenario.store) =
  [AppVersion.set_currentEnvironmentId "E3" Scenario.V1;
   AppVersion.set_currentEnvironmentId "E3" Scenario.V2] /\
  issued (trace (fst (run acked Scenario.store))) =
  [mkUpdate "V1" "E1"; mkUpdate "V2" "E1";
   mkUpdate "V1" "E3"; mkUpdate "V2" "E3"].
Proof.
  rewrite run_outcome, final_store_spec, run_trace. repeat split.
Qed.

(** With the organizations loaded in the other order, it is the version of
    the app of [O2] that ends up with the default environment of [O1]. *)
Lemma backFill_two_tenants_other_order (acked : World -> nat) :
  let s := {| organizations := [Scenario.O2; Scenario.O1];
              apps := [Scenario.A1; Scenario.A2] |} in
  snd (run acked s) = inr tt /\
  versions_of_organization Scenario.O2 (final_store acked s) =
  [AppVersion.set_currentEnvironmentId "E1" Scenario.V3].
Proof.
  cbn zeta. rewrite run_outcome, final_store_spec. repeat split.
Qed.

(** C2. The load of the apps inside the loop over the organizations has no
    [where] option, so every turn of the loop writes every version row of the
    store.  When every organization has a default-flagged environment, the
    run completes, and every version row of the whole store, whichever
    organization owns it, ends up (once the writes of the run are
    acknowledged) holding the identifier of the default environment of the
    last organization of the iteration order.  A version
    owned by an earlier organization whose default environment has another
    identifier does not hold its own tenant's default. *)
Theorem backFill_last_organization_wins
    (acked : World -> nat) (s : Store)
    (before : list Organization.t) (last : Organization.t)
    (e : AppEnvironment.t) :
  organizations s = before ++ [last] ->
  Forall (fun o => default_count o <> 0) (organizations s) ->
  productionEnvironment last = Some e ->
  snd (run acked s) = inr tt /\
  (forall v, In v (all_versions (final_store acked s)) ->
     AppVersion.currentEnvironmentId v = Some (AppEnvironment.id e)) /\
  (forall o e' v,
     In o before ->
     productionEnvironment o = Some e' ->
     AppEnvironment.id e' <> AppEnvironment.id e ->
     In v (versions_of_organization o (final_store acked s)) ->
     AppVersion.currentEnvironmentId v <> Some (AppEnvironment.id e')).
Proof.
  intros Horgs Hall Hlast.
  assert (Hok : snd (run acked s) = inr tt)
    by (rewrite run_outcome; now apply passes_all_default).
  assert (Hev : forall v, In v (all_versions (final_store acked s)) ->
     AppVersion.currentEnvironmentId v = Some (AppEnvironment.id e)).
  { intros v. rewrite final_store_spec, Horgs, passes_app.
    rewrite Horgs in Hall. apply Forall_app in Hall as [Hbefore _].
    pose proof (passes_all_default before (version_ids s) Hbefore) as Hb.
    destruct (passes before (version_ids s)) as [evs1 [ex|[]]];
      [discriminate|].
    cbn [passes]. rewrite Hlast.
    change (pass_events (Some e) (version_ids s))
      with (fst (pass_events (Some e) (version_ids s)), @inr Exception unit tt).
    cbn iota. rewrite app_nil_r.
    rewrite apply_writes_map_versions, all_versions_map_versions.
    intros Hin. apply in_map_iff in Hin as (v0 & <- & Hv0).
    rewrite row_after_last_match.
    cbn [fst]. rewrite issued_app, last_match_app.
    change (issued (FindApp :: ?l)) with (issued l).
    rewrite (issued_pass_events_some e (version_ids s)).
    rewrite last_match_same_value; [reflexivity|].
    unfold version_ids. now apply in_map. }
  repeat split; [exact Hok|exact Hev|].
  intros o e' v _ _ Hne Hv.
  apply in_versions_of_organization in Hv. rewrite (Hev v Hv). congruence.
Qed.

(** The hypotheses of C2 hold in the store with the two tenants [O1] (apps
    [A1], versions [V1], [V2]) and [O2] (app [A2], version [V3]): all three
    versions end up with [E3], the default of [O2]. *)
Lemma backFill_last_organization_wins_two_tenants :
  snd (run Scenario.eager Scenario.two_tenants) = inr tt /\
  (forall v, In v (all_versions
                     (final_store Scenario.eager Scenario.two_tenants)) ->
     AppVersion.currentEnvironmentId v = Some "E3") /\
  (forall o e' v,
     In o [Scenario.O1] ->
     productionEnvironment o = Some e' ->
     AppEnvironment.id e' <> AppEnvironment.id Scenario.E3 ->
     In v (versions_of_organization o
             (final_store Scenario.eager Scenario.two_tenants)) ->
     AppVersion.currentEnvironmentId v <> Some (AppEnvironment.id e')).
Proof.
  apply (backFill_last_organization_wins
           Scenario.eager Scenario.two_tenants [Scenario.O1] Scenario.O2
           Scenario.E3).
  - reflexivity.
  - repeat (apply Forall_cons; [vm_compute; discriminate|]). apply Forall_nil.
  - reflexivity.
Defined.

(** C3 as stated fails: the store [Scenario.no_versions] holds an
    organization without any default-flagged environment, and the run
    completes without raising anything, under every schedule. *)
Lemma backFill_missing_default_without_versions_completes :
  In Scenario.O0 (organizations Scenario.no_versions) /\
  default_count Scenario.O0 = 0 /\
  forall acked,
    snd (run acked Scenario.no_versions) = inr tt /\
    snd (run acked Scenario.no_versions) <>
    inl TypeError_reading_id_of_undefined.
Proof.
  split; [now left|]. split; [reflexivity|].
  intros acked. rewrite run_outcome. split; [reflexivity|discriminate].
Qed.

(** C3, amended.  When the store holds an organization without any
    default-flagged environment and at least one version row, the run is
    rejected with the exception of [productionEnvironment.id] (the
    NoDefaultEnvironment failure).  It is raised in the turn of the first
    such organization [o] of the iteration order, after the log line of the
    first version row [i] and before any write of that turn: the trace ends
    with the load of the apps and that log line, and the writes issued by
    the whole run are those of the turns of the organizations before [o]. *)
Theorem backFill_missing_default_throws_before_writing
    (acked : World -> nat) (s : Store) :
  (exists o, In o (organizations s) /\ default_count o = 0) ->
  all_versions s <> [] ->
  exists before o after i,
    organizations s = before ++ o :: after /\
    Forall (fun o' => default_count o' <> 0) before /\
    default_count o = 0 /\
    hd_error (version_ids s) = Some i /\
    snd (run acked s) = inl TypeError_reading_id_of_undefined /\
    trace (fst (run acked s)) =
      FindOrganization :: fst (passes before (version_ids s))
                       ++ [FindApp; ConsoleLog i] /\
    issued (trace (fst (run acked s))) =
      flat_map (fun o' => writes_of_pass o' (version_ids s)) before.
Proof.
  intros Hex Hvs.
  destruct (first_without_default _ Hex) as (before & o & after & Horgs & Hb & Ho).
  assert (Hne : version_ids s <> []).
  { unfold version_ids. destruct (all_versions s); [congruence|discriminate]. }
  rewrite run_outcome, run_trace, Horgs, passes_app.
  pose proof (passes_all_default before (version_ids s) Hb) as Hok.
  pose proof (issued_passes before (version_ids s) Hok) as Hiss.
  destruct (version_ids s) as [|i ids]; [congruence|].
  exists before, o, after, i.
  destruct (passes before (i :: ids)) as [evs [ex|[]]]; [discriminate|].
  cbn [passes]. apply default_count_zero in Ho as Hnone. rewrite Hnone.
  cbn [pass_events fst snd] in *. repeat split; auto.
  change (FindOrganization :: ?l) with ([FindOrganization] ++ l).
  rewrite !issued_app, Hiss. cbn. apply app_nil_r.
Qed.

(** The hypotheses of the amended C3 hold in [Scenario.missing_default]:
    [O1] has its default, [O0] has none, and [A1] has two versions. *)
Lemma backFill_missing_default_throws_before_writing_witness :
  exists before o after i,
    organizations Scenario.missing_default = before ++ o :: after /\
    Forall (fun o' => default_count o' <> 0) before /\
    default_count o = 0 /\
    hd_error (version_ids Scenario.missing_default) = Some i /\
    snd (run Scenario.eager Scenario.missing_default) =
      inl TypeError_reading_id_of_undefined /\
    trace (fst (run Scenario.eager Scenario.missing_default)) =
      FindOrganization
        :: fst (passes before (version_ids Scenario.missing_default))
        ++ [FindApp; ConsoleLog i] /\
    issued (trace (fst (run Scenario.eager Scenario.missing_default))) =
      flat_map (fun o' => writes_of_pass o'
                            (version_ids Scenario.missing_default)) before.
Proof.
  apply (backFill_missing_default_throws_before_writing
           Scenario.eager Scenario.missing_default).
  - exists Scenario.O0. split; [simpl; tauto|reflexivity].
  - vm_compute. discriminate.
Defined.

(** C4. For an organization [o] with more than one default-flagged
    environment the run resolves one defined record, the first
    default-flagged one [e] in the order of the loaded list, and it is the
    identifier of [e] that the turn of [o] writes: when the loop gets to
    [o] (the organizations before it have a default-flagged environment),
    the trace of the run is the turns of the organizations before [o], then
    the load of the apps and, for every version row, its log line and its
    update to the identifier of [e], then the turns of the organizations
    after [o].  Two runs over the same store, under any two schedules, and a
    run after a run, have that same trace: they resolve the same record. *)
Theorem backFill_resolves_first_default
    (acked acked' : World -> nat) (s : Store)
    (before after : list Organization.t) (o : Organization.t) :
  organizations s = before ++ o :: after ->
  Forall (fun o' => default_count o' <> 0) before ->
  1 < default_count o ->
  exists e,
    first_default e (Organization.appEnvironments o) /\
    productionEnvironment o = Some e /\
    trace (fst (run acked s)) =
      FindOrganization
        :: fst (passes before (version_ids s))
        ++ FindApp
        :: flat_map (fun i => [ConsoleLog i;
                               UpdateIssued
                                 (mkUpdate i (AppEnvironment.id e))])
                    (version_ids s)
        ++ fst (passes after (version_ids s)) /\
    trace (fst (run acked' s)) = trace (fst (run acked s)) /\
    snd (run acked' s) = snd (run acked s) /\
    trace (fst (run acked' (final_store acked s))) = trace (fst (run acked s)) /\
    organizations (final_store acked s) = organizations s.
Proof.
  intros Horgs Hb Hcount.
  destruct (default_count_positive o) as [e He]; [lia|].
  exists e. split.
  { destruct (Array_find_some_first _ _ _ He) as (pre & post & H1 & H2 & H3).
    now exists pre, post. }
  split; [exact He|].
  destruct (run_frame acked s) as [_ Hfin].
  repeat split.
  - rewrite run_trace, Horgs, passes_app.
    pose proof (passes_all_default before (version_ids s) Hb) as Hok.
    destruct (passes before (version_ids s)) as [evs [ex|[]]];
      [discriminate|].
    cbn [passes]. rewrite He.
    change (pass_events (Some e) (version_ids s))
      with (fst (pass_events (Some e) (version_ids s)),
            @inr Exception unit tt).
    cbn iota. destruct (passes after (version_ids s)) as [evs' r].
    reflexivity.
  - now rewrite !run_trace.
  - now rewrite !run_outcome.
  - rewrite !run_trace.
    now rewrite (frame_version_ids _ _ Hfin), (frame_organizations _ _ Hfin).
  - now apply frame_organizations.
Qed.

(** The hypotheses of C4 hold for [O3], whose environments are [E5], [E4]
    (default) and [E6] (default), in that order: the run writes [E4]. *)
Lemma backFill_resolves_first_default_witness :
  trace (fst (run Scenario.deferred Scenario.two_defaults)) =
    [FindOrganization; FindApp; ConsoleLog "V1";
     UpdateIssued (mkUpdate "V1" "E4")] /\
  exists e,
    first_default e (Organization.appEnvironments Scenario.O3) /\
    productionEnvironment Scenario.O3 = Some e /\
    trace (fst (run Scenario.deferred Scenario.two_defaults)) =
      FindOrganization
        :: fst (passes [] (version_ids Scenario.two_defaults))
        ++ FindApp
        :: flat_map (fun i => [ConsoleLog i;
                               UpdateIssued
                                 (mkUpdate i (AppEnvironment.id e))])
                    (version_ids Scenario.two_defaults)
        ++ fst (passes [] (version_ids Scenario.two_defaults)) /\
    trace (fst (run Scenario.eager Scenario.two_defaults)) =
      trace (fst (run Scenario.deferred Scenario.two_defaults)) /\
    snd (run Scenario.eager Scenario.two_defaults) =
      snd (run Scenario.deferred Scenario.two_defaults) /\
    trace (fst (run Scenario.eager
                  (final_store Scenario.deferred Scenario.two_defaults))) =
      trace (fst (run Scenario.deferred Scenario.two_defaults)) /\
    organizations (final_store Scenario.deferred Scenario.two_defaults) =
      organizations Scenario.two_defaults.
Proof.
  split; [reflexivity|].
  apply (backFill_resolves_first_default
           Scenario.deferred Scenario.eager Scenario.two_defaults
           [] [] Scenario.O3).
  - reflexivity.
  - apply Forall_nil.
  - vm_compute. lia.
Defined.

(** C5. Running [backFillNewColumn] a second time, on the world the first
    run left (its late writes possibly still in flight) or on the store the
    first run led to, ends like the first run and leads to the same store:
    the organizations are loaded in the same order, the same version rows
    are visited, and the same writes are issued again. *)
Theorem backFill_twice_same_as_once
    (acked1 acked2 : World -> nat) (s : Store) :
  let once := run acked1 s in
  let twice := backFillNewColumn acked2 (fst once) in
  settled (fst twice) = settled (fst once) /\
  snd twice = snd once /\
  final_store acked2 (final_store acked1 s) = final_store acked1 s /\
  snd (run acked2 (final_store acked1 s)) = snd once.
Proof.
  cbn zeta.
  destruct (run_spec acked1 s) as (w1 & Hrun1 & _ & Hst1 & Hfr1).
  rewrite Hrun1. cbn [fst snd].
  destruct (backFillNewColumn_spec acked2 w1) as (w2 & Hrun2 & _ & Hst2 & _).
  rewrite (frame_version_ids _ _ Hfr1), (frame_organizations _ _ Hfr1)
    in Hrun2, Hst2.
  rewrite Hrun2. cbn [fst snd].
  assert (Hfin : final_store acked1 s = settled w1)
    by (unfold final_store; now rewrite Hrun1).
  assert (Hfr : frame (settled w1) = frame s)
    by (rewrite frame_settled; exact Hfr1).
  repeat split.
  - rewrite Hst2, Hst1. apply apply_writes_idempotent.
  - rewrite Hfin, final_store_spec.
    rewrite (frame_version_ids _ _ Hfr), (frame_organizations _ _ Hfr).
    rewrite Hst1. apply apply_writes_idempotent.
  - rewrite Hfin, run_outcome.
    now rewrite (frame_version_ids _ _ Hfr), (frame_organizations _ _ Hfr).
Qed.

(** C6. The backward entry point [down] has an empty body: from every
    world it returns at once, with the store, the writes in flight and the
    trace as they were, so no organization, environment, app or version row
    changes and no write is issued. *)
Theorem down_is_a_no_op (w : World) :
  down w = (w, inr tt) /\
  db (fst (down w)) = db w /\
  inflight (fst (down w)) = inflight w /\
  trace (fst (down w)) = trace w /\
  settled (fst (down w)) = settled w.
Proof. repeat split. Qed.

(** C7. Every run of the forward backfill, completed or failed, changes
    nothing but the [currentEnvironmentId] column of the version rows: the
    organizations with their environments, the apps, the number and order
    of the version rows of each app and every other column of every version
    row are the same in the store when the run ends, and in the store once
    the writes in flight have been acknowledged, as they were at the start.
    ([frame_complete]: the frame and the column make up the store.) *)
Theorem backFill_writes_only_currentEnvironmentId
    (acked : World -> nat) (s : Store) :
  frame (db (fst (run acked s))) = frame s /\
  frame (final_store acked s) = frame s /\
  organizations (final_store acked s) = organizations s /\
  map app_frame (apps (final_store acked s)) = map app_frame (apps s) /\
  map AppVersion.other_columns (all_versions (final_store acked s)) =
  map AppVersion.other_columns (all_versions s).
Proof.
  destruct (run_frame acked s) as [Hfr Hfs].
  repeat split; try assumption.
  - now apply frame_organizations.
  - unfold frame in Hfs. congruence.
  - now apply frame_other_columns.
Qed.

(** C8, on the code.  In the store of the scenario (two organizations,
    one app with the versions [V1] and [V2]) [backFillNewColumn] completes,
    and under every schedule its promise settles with the two writes of the
    last turn still in flight, after those of the first turn that the store
    has not got to yet: no [manager.update] is awaited, so the second write
    of a turn is issued with the first one unacknowledged, and nothing makes
    the acknowledgments precede the end of the function.  The [await] of
    [up] is the only point left at which the store may catch up, and
    whether it does is a matter of timing: when the acknowledgments come
    late, [up] resolves with the four writes in flight and the rows of [V1]
    and [V2] still empty in the store; when they come at once, nothing is
    left in flight. *)
Theorem backFill_completes_with_its_writes_in_flight
    (acked : World -> nat) :
  snd (backFillNewColumn acked (start Scenario.store)) = inr tt /\
  (exists k,
     inflight (fst (backFillNewColumn acked (start Scenario.store))) =
     skipn k [mkUpdate "V1" "E1"; mkUpdate "V2" "E1"] ++
     [mkUpdate "V1" "E3"; mkUpdate "V2" "E3"]) /\
  snd (run acked Scenario.store) = inr tt /\
  inflight (fst (run Scenario.deferred Scenario.store)) =
    [mkUpdate "V1" "E1"; mkUpdate "V2" "E1";
     mkUpdate "V1" "E3"; mkUpdate "V2" "E3"] /\
  all_versions (db (fst (run Scenario.deferred Scenario.store))) =
    [Scenario.V1; Scenario.V2] /\
  inflight (fst (run Scenario.eager Scenario.store)) = [].
Proof.
  rewrite run_outcome. split; [|split; [|repeat split]].
  - destruct (backFillNewColumn_spec acked (start Scenario.store))
      as (w' & -> & _). reflexivity.
  - rewrite backFillNewColumn_start.
    cbn [Scenario.store organizations for_of]. unfold bind.
    rewrite pass_spec, acknowledge_nothing by reflexivity.
    set (w0 := emit [FindOrganization] _).
    change (pass_events (productionEnvironment Scenario.O1)
                        (version_ids (db w0)))
      with ([ConsoleLog "V1"; UpdateIssued (mkUpdate "V1" "E1");
             ConsoleLog "V2"; UpdateIssued (mkUpdate "V2" "E1")],
            @inr Exception unit tt).
    cbn [fst snd]. set (w1 := emit (FindApp :: _) w0).
    rewrite pass_spec.
    assert (Hids : version_ids (db (acknowledge (acked w1) w1)) =
                   ["V1"; "V2"])
      by (rewrite (frame_version_ids _ _ (frame_db_acknowledge _ _));
          reflexivity).
    rewrite Hids.
    change (pass_events (productionEnvironment Scenario.O2) ["V1"; "V2"])
      with ([ConsoleLog "V1"; UpdateIssued (mkUpdate "V1" "E3");
             ConsoleLog "V2"; UpdateIssued (mkUpdate "V2" "E3")],
            @inr Exception unit tt).
    cbn [fst snd ret]. exists (acked w1). reflexivity.
Qed.

(** In general, and under every schedule, when [backFillNewColumn]
    completes, every write of the turn of the last organization is in
    flight. *)
Lemma backFill_completes_with_last_turn_in_flight
    (acked : World -> nat) (s : Store)
    (before : list Organization.t) (last : Organization.t) :
  organizations s = before ++ [last] ->
  snd (backFillNewColumn acked (start s)) = inr tt ->
  exists pre,
    inflight (fst (backFillNewColumn acked (start s))) =
    pre ++ writes_of_pass last (version_ids s).
Proof. apply backFillNewColumn_last_inflight. Qed.

(** C9. When no app has any version row, the run completes without
    raising anything and issues no write, whether or not every organization
    has a default-flagged environment: [productionEnvironment.id] is only
    evaluated inside the loop over the versions. *)
Theorem backFill_without_versions_completes_without_writing
    (acked : World -> nat) (s : Store) :
  Forall (fun a => App.appVersions a = []) (apps s) ->
  snd (run acked s) = inr tt /\
  issued (trace (fst (run acked s))) = [] /\
  inflight (fst (run acked s)) = [] /\
  db (fst (run acked s)) = s /\
  final_store acked s = s.
Proof.
  intros Hno. apply all_versions_nil in Hno.
  assert (Htr : issued (trace (fst (run acked s))) = []).
  { rewrite run_trace. unfold version_ids. rewrite Hno. cbn [map].
    rewrite passes_no_versions. cbn [fst].
    change (FindOrganization :: ?l) with ([FindOrganization] ++ l).
    rewrite issued_app, issued_find_only. reflexivity. }
  unfold final_store, settled.
  destruct (run_no_versions acked s Hno) as (w' & Hrun & Hdb & Hfl).
  rewrite Hrun in *. cbn [fst snd] in *. rewrite Hfl, Hdb.
  repeat split. exact Htr.
Qed.

(** The hypothesis of C9 holds in [Scenario.no_versions], whose only
    organization has no default-flagged environment. *)
Lemma backFill_without_versions_completes_without_writing_witness :
  default_count Scenario.O0 = 0 /\
  snd (run Scenario.eager Scenario.no_versions) = inr tt /\
  issued (trace (fst (run Scenario.eager Scenario.no_versions))) = [] /\
  inflight (fst (run Scenario.eager Scenario.no_versions)) = [] /\
  db (fst (run Scenario.eager Scenario.no_versions)) = Scenario.no_versions /\
  final_store Scenario.eager Scenario.no_versions = Scenario.no_versions.
Proof.
  split; [reflexivity|].
  apply (backFill_without_versions_completes_without_writing
           Scenario.eager Scenario.no_versions).
  repeat constructor.
Defined.

(** C10. In a run that completes, the writes issued are, organization
    after organization in the order of the loop, one write per version row
    of the whole store, each setting [currentEnvironmentId] to the
    identifier of the default environment resolved for that organization.
    Their number is the number of organizations times the number of version
    rows. *)
Theorem backFill_issues_a_write_per_organization_and_version
    (acked : World -> nat) (s : Store) :
  snd (run acked s) = inr tt ->
  issued (trace (fst (run acked s))) =
    flat_map (fun o => writes_of_pass o (version_ids s)) (organizations s) /\
  length (issued (trace (fst (run acked s)))) =
    length (organizations s) * length (all_versions s) /\
  (forall o, In o (organizations s) -> all_versions s <> [] ->
     exists e,
       productionEnvironment o = Some e /\
       writes_of_pass o (version_ids s) =
       map (fun v => mkUpdate (AppVersion.id v) (AppEnvironment.id e))
           (all_versions s)).
Proof.
  intros Hok. rewrite run_outcome in Hok.
  assert (Hdef : forall o, In o (organizations s) -> all_versions s <> [] ->
     exists e, productionEnvironment o = Some e /\
       writes_of_pass o (version_ids s) =
       map (fun v => mkUpdate (AppVersion.id v) (AppEnvironment.id e))
           (all_versions s)).
  { intros o Hin Hvs.
    destruct (passes_completed_default _ _ o Hok Hin) as [e He].
    - unfold version_ids. destruct (all_versions s); [congruence|discriminate].
    - exists e. split; [exact He|].
      unfold writes_of_pass, version_ids. rewrite He. apply map_map. }
  assert (Hiss : issued (trace (fst (run acked s))) =
    flat_map (fun o => writes_of_pass o (version_ids s)) (organizations s)).
  { rewrite run_trace.
    change (FindOrganization :: ?l) with ([FindOrganization] ++ l).
    rewrite issued_app. now rewrite issued_passes. }
  repeat split; [exact Hiss| |exact Hdef].
  rewrite Hiss. apply length_flat_map_constant. intros o Hin.
  destruct (all_versions s) as [|v vs] eqn:E.
  - unfold writes_of_pass, version_ids. rewrite E.
    now destruct (productionEnvironment o).
  - destruct (Hdef o Hin) as (e & _ & ->); [discriminate|]. apply length_map.
Qed.

(** The hypothesis of C10 holds in the store with the two tenants: two
    organizations, three version rows, six writes. *)
Lemma backFill_issues_a_write_per_organization_and_version_witness :
  length (issued (trace (fst (run Scenario.deferred Scenario.two_tenants)))) = 6 /\
  issued (trace (fst (run Scenario.deferred Scenario.two_tenants))) =
    flat_map (fun o => writes_of_pass o (version_ids Scenario.two_tenants))
             (organizations Scenario.two_tenants) /\
  length (issued (trace (fst (run Scenario.deferred Scenario.two_tenants)))) =
    length (organizations Scenario.two_tenants) *
    length (all_versions Scenario.two_tenants) /\
  (forall o, In o (organizations Scenario.two_tenants) ->
     all_versions Scenario.two_tenants <> [] ->
     exists e,
       productionEnvironment o = Some e /\
       writes_of_pass o (version_ids Scenario.two_tenants) =
       map (fun v => mkUpdate (AppVersion.id v) (AppEnvironment.id e))
           (all_versions Scenario.two_tenants)).
Proof.
  split; [reflexivity|].
  apply (backFill_issues_a_write_per_organization_and_version
           Scenario.deferred Scenario.two_tenants).
  reflexivity.
Defined.

(** * Further properties of the migration *)

(** ** Lemmas on traces *)

Section TraceFacts.

Lemma logged_app evs1 evs2 : logged (evs1 ++ evs2) = logged evs1 ++ logged evs2.
Proof. unfold logged. apply flat_map_app. Qed.

Lemma logged_pass_events pe ids :
  snd (pass_events pe ids) = inr tt -> logged (fst (pass_events pe ids)) = ids.
Proof.
  destruct pe as [e|]; simpl.
  - intros _. induction ids as [|i ids IH]; simpl; now f_equal.
  - destruct ids; [reflexivity|discriminate].
Qed.

Lemma filter_pass_events (p : Event -> bool) pe ids :
  (forall i, p (ConsoleLog i) = false) ->
  (forall w, p (UpdateIssued w) = false) ->
  filter p (fst (pass_events pe ids)) = [].
Proof.
  intros Hlog Hupd. destruct pe as [e|]; simpl.
  - induction ids as [|i ids IH]; simpl; [reflexivity|].
    now rewrite Hlog, Hupd.
  - destruct ids; simpl; [reflexivity|]. now rewrite Hlog.
Qed.

Lemma app_loads_pass_events pe ids rest :
  app_loads (fst (pass_events pe ids) ++ rest) = app_loads rest.
Proof.
  unfold app_loads. rewrite filter_app, filter_pass_events; auto.
Qed.

Lemma organization_loads_passes orgs ids :
  organization_loads (fst (passes orgs ids)) = 0.
Proof.
  unfold organization_loads. induction orgs as [|o orgs IH]; [reflexivity|].
  cbn [passes].
  pose proof (filter_pass_events
                (fun ev => match ev with
                           | FindOrganization => true
                           | _ => false
                           end)
                (productionEnvironment o) ids
                (fun _ => eq_refl) (fun _ => eq_refl)) as H.
  destruct (pass_events (productionEnvironment o) ids) as [evs [ex|[]]];
    cbn [fst] in *.
  - simpl. now rewrite H.
  - destruct (passes orgs ids) as [evs' r]. cbn [fst] in *. simpl.
    now rewrite filter_app, H.
Qed.

Lemma logged_before_update_pass pe ids rest :
  snd (pass_events pe ids) = inr tt ->
  logged_before_update (fst (pass_events pe ids) ++ rest) =
  logged_before_update rest.
Proof.
  destruct pe as [e|]; simpl.
  - intros _. induction ids as [|i ids IH]; [reflexivity|].
    cbn [flat_map app]. cbn [logged_before_update criteria_id].
    now rewrite String.eqb_refl, IH.
  - destruct ids; [reflexivity|discriminate].
Qed.

Lemma logged_before_update_passes orgs ids :
  logged_before_update (fst (passes orgs ids)) = true.
Proof.
  induction orgs as [|o orgs IH]; [reflexivity|]. cbn [passes].
  pose proof (logged_before_update_pass (productionEnvironment o) ids) as Hp.
  destruct (productionEnvironment o) as [e|] eqn:E.
  - cbn [pass_events] in *. destruct (passes orgs ids) as [evs' r].
    cbn [fst snd] in *. cbn [logged_before_update]. now rewrite Hp.
  - destruct ids as [|i ids']; cbn [pass_events] in *.
    + destruct (passes orgs []) as [evs' r]. cbn [fst snd] in *.
      cbn [logged_before_update]. now rewrite Hp.
    + reflexivity.
Qed.

End TraceFacts.

(** ** Lemmas on completed and failed loops *)

Section OutcomeFacts.

Lemma passes_completes_iff orgs ids :
  snd (passes orgs ids) = inr tt <->
  ids = [] \/ Forall (fun o => default_count o <> 0) orgs.
Proof.
  split.
  - intros Hok. destruct ids as [|i ids]; [now left|right].
    apply Forall_forall. intros o Hin.
    destruct (passes_completed_default orgs (i :: ids) o Hok Hin) as [e He];
      [discriminate|].
    rewrite default_count_zero, He. discriminate.
  - intros [->|Hall].
    + now rewrite passes_no_versions.
    + now apply passes_all_default.
Qed.

Lemma length_logged_passes orgs ids :
  length (logged (fst (passes orgs ids))) =
  length (issued (fst (passes orgs ids))) +
  match snd (passes orgs ids) with inl _ => 1 | inr _ => 0 end.
Proof.
  induction orgs as [|o orgs IH]; [reflexivity|]. cbn [passes].
  destruct (productionEnvironment o) as [e|].
  - pose proof (logged_pass_events (Some e) ids eq_refl) as Hl.
    pose proof (issued_pass_events_some e ids) as Hi.
    cbn [pass_events] in *. destruct (passes orgs ids) as [evs' r].
    cbn [fst snd] in *.
    change (FindApp :: ?l) with ([FindApp] ++ l).
    rewrite !logged_app, !issued_app, Hl, Hi, !length_app, length_map, IH.
    simpl. lia.
  - destruct ids as [|i ids']; cbn [pass_events]; [|reflexivity].
    destruct (passes orgs []) as [evs' r]. cbn [fst snd] in *. exact IH.
Qed.

Lemma logged_passes orgs ids :
  snd (passes orgs ids) = inr tt ->
  logged (fst (passes orgs ids)) = flat_map (fun _ => ids) orgs /\
  app_loads (fst (passes orgs ids)) = length orgs.
Proof.
  induction orgs as [|o orgs IH]; [now split|]. cbn [passes].
  pose proof (logged_pass_events (productionEnvironment o) ids) as Hl.
  pose proof (app_loads_pass_events (productionEnvironment o) ids) as Ha.
  destruct (pass_events (productionEnvironment o) ids) as [evs [ex|[]]];
    [discriminate|].
  destruct (passes orgs ids) as [evs' r]. cbn [fst snd] in *.
  intros ->. destruct IH as [IH1 IH2]; [reflexivity|].
  change (FindApp :: evs ++ evs') with ([FindApp] ++ evs ++ evs').
  rewrite !logged_app, Hl, IH1 by reflexivity. split; [reflexivity|].
  cbn [app]. unfold app_loads in *. cbn [filter length].
  now rewrite Ha, IH2.
Qed.

Lemma issued_pass_events_in pe ids w :
  In w (issued (fst (pass_events pe ids))) ->
  In (criteria_id w) ids /\
  exists e, pe = Some e /\ set_to w = AppEnvironment.id e.
Proof.
  destruct pe as [e|].
  - rewrite issued_pass_events_some, in_map_iff. intros (i & <- & Hi).
    split; [exact Hi|]. now exists e.
  - destruct ids; intros [].
Qed.

Lemma issued_passes_in orgs ids w :
  In w (issued (fst (passes orgs ids))) ->
  In (criteria_id w) ids /\
  exists o e,
    In o orgs /\ productionEnvironment o = Some e /\
    set_to w = AppEnvironment.id e.
Proof.
  induction orgs as [|o orgs IH]; [intros []|]. cbn [passes].
  pose proof (issued_pass_events_in (productionEnvironment o) ids w) as Hp.
  destruct (pass_events (productionEnvironment o) ids) as [evs [ex|[]]];
    cbn [fst] in *.
  - change (issued (FindApp :: evs)) with (issued evs). intros Hin.
    destruct (Hp Hin) as (Hi & e & He & Hs). split; [exact Hi|].
    exists o, e. simpl. tauto.
  - destruct (passes orgs ids) as [evs' r]. cbn [fst] in *.
    change (issued (FindApp :: evs ++ evs')) with (issued (evs ++ evs')).
    rewrite issued_app, in_app_iff. intros [Hin|Hin].
    + destruct (Hp Hin) as (Hi & e & He & Hs). split; [exact Hi|].
      exists o, e. simpl. tauto.
    + destruct (IH Hin) as (Hi & o' & e & Ho & He & Hs). split; [exact Hi|].
      exists o', e. simpl. tauto.
Qed.

(** The writes of a loop whose last completed turn is that of [p]. *)
Lemma issued_passes_snoc before p e ids :
  Forall (fun o => default_count o <> 0) before ->
  productionEnvironment p = Some e ->
  snd (passes (before ++ [p]) ids) = inr tt /\
  issued (fst (passes (before ++ [p]) ids)) =
  issued (fst (passes before ids)) ++
  map (fun i => mkUpdate i (AppEnvironment.id e)) ids.
Proof.
  intros Hb Hp. rewrite passes_app.
  pose proof (passes_all_default before ids Hb) as Hok.
  destruct (passes before ids) as [evs [ex|[]]]; [discriminate|].
  cbn [passes]. rewrite Hp.
  change (pass_events (Some e) ids)
    with (fst (pass_events (Some e) ids), @inr Exception unit tt).
  cbn iota. cbn [fst snd]. split; [reflexivity|].
  rewrite app_nil_r, issued_app.
  change (issued (FindApp :: ?l)) with (issued l).
  now rewrite issued_pass_events_some.
Qed.

(** After writes that end with a write of [e] to every version row, every
    version row holds [e]. *)
Lemma versions_after_last_pass ws e s v :
  In v (all_versions
          (apply_writes (ws ++ map (fun i => mkUpdate i e) (version_ids s)) s)) ->
  AppVersion.currentEnvironmentId v = Some e.
Proof.
  rewrite apply_writes_map_versions, all_versions_map_versions, in_map_iff.
  intros (v0 & <- & Hv0).
  rewrite row_after_last_match, last_match_app, last_match_same_value;
    [reflexivity|].
  unfold version_ids. now apply in_map.
Qed.

Lemma versions_of_organization_map_versions f o s :
  versions_of_organization o (map_versions f s) =
  map f (versions_of_organization o s).
Proof.
  unfold versions_of_organization, map_versions. simpl.
  induction (apps s) as [|a aps IH]; simpl; [reflexivity|].
  destruct (String.eqb (App.organizationId a) (Organization.id o)); simpl.
  - now rewrite IH, map_app.
  - exact IH.
Qed.

Lemma filter_singleton_unique {A} (p : A -> bool) xs x y :
  filter p xs = [x] -> In y xs -> p y = true -> y = x.
Proof.
  intros Hf Hin Hp.
  assert (H : In y (filter p xs)) by (apply filter_In; tauto).
  rewrite Hf in H. destruct H as [H|[]]. now symmetry.
Qed.

Lemma Array_find_filter_head {A} (p : A -> bool) xs :
  Array_find p xs = hd_error (filter p xs).
Proof.
  induction xs as [|x xs IH]; simpl; [reflexivity|].
  now destruct (p x).
Qed.

End OutcomeFacts.

(** ** Properties of the runs *)

(** X1. In every run, completed or failed, each update in the trace comes
    directly after the [console.log] line of the row it selects, and the
    number of log lines is the number of updates issued, plus one when the
    run fails: the row announced last is then the one whose update was never
    made. *)
Theorem backFill_logs_each_row_before_its_update
    (acked : World -> nat) (s : Store) :
  logged_before_update (trace (fst (run acked s))) = true /\
  length (logged (trace (fst (run acked s)))) =
  length (issued (trace (fst (run acked s)))) +
  match snd (run acked s) with inl _ => 1 | inr _ => 0 end.
Proof.
  rewrite run_trace, run_outcome. split.
  - cbn [logged_before_update]. apply logged_before_update_passes.
  - change (FindOrganization :: ?l) with ([FindOrganization] ++ l).
    rewrite logged_app, issued_app. apply length_logged_passes.
Qed.

(** X2. A run that completes loads the organizations once, first of all,
    loads the apps once per organization (also when there is no app at
    all), and prints the identifiers of all the version rows once per
    organization, in the order of the store. *)
Theorem backFill_completed_run_loads_and_logs
    (acked : World -> nat) (s : Store) :
  snd (run acked s) = inr tt ->
  hd_error (trace (fst (run acked s))) = Some FindOrganization /\
  organization_loads (trace (fst (run acked s))) = 1 /\
  app_loads (trace (fst (run acked s))) = length (organizations s) /\
  logged (trace (fst (run acked s))) =
  flat_map (fun _ => version_ids s) (organizations s).
Proof.
  rewrite run_outcome, run_trace. intros Hok.
  destruct (logged_passes _ _ Hok) as [Hl Ha].
  repeat split.
  - unfold organization_loads. cbn [filter length]. f_equal.
    apply organization_loads_passes.
  - exact Ha.
  - exact Hl.
Qed.

Lemma backFill_completed_run_loads_and_logs_witness :
  hd_error (trace (fst (run Scenario.eager Scenario.two_tenants))) =
    Some FindOrganization /\
  organization_loads (trace (fst (run Scenario.eager Scenario.two_tenants))) =
    1 /\
  app_loads (trace (fst (run Scenario.eager Scenario.two_tenants))) =
    length (organizations Scenario.two_tenants) /\
  logged (trace (fst (run Scenario.eager Scenario.two_tenants))) =
    flat_map (fun _ => version_ids Scenario.two_tenants)
             (organizations Scenario.two_tenants).
Proof.
  apply (backFill_completed_run_loads_and_logs
           Scenario.eager Scenario.two_tenants).
  reflexivity.
Defined.

(** X3. A run completes exactly when the store has no version row or every
    organization has a default-flagged environment; otherwise it is
    rejected with the exception of [productionEnvironment.id]. *)
Theorem backFill_completes_iff (acked : World -> nat) (s : Store) :
  (snd (run acked s) = inr tt <->
   all_versions s = [] \/
   Forall (fun o => default_count o <> 0) (organizations s)) /\
  (snd (run acked s) = inr tt \/
   snd (run acked s) = inl TypeError_reading_id_of_undefined).
Proof.
  rewrite run_outcome. split.
  - rewrite passes_completes_iff. unfold version_ids.
    split; (intros [H|H]; [left|now right]).
    + now apply map_eq_nil in H.
    + now rewrite H.
  - destruct (snd (passes (organizations s) (version_ids s))) as [[]|[]]; auto.
Qed.

(** X4. The store a run leads to does not depend on when the store
    acknowledges the writes: two runs over the same store, under any two
    schedules, lead to the same store. *)
Theorem backFill_final_store_independent_of_timing
    (acked acked' : World -> nat) (s : Store) :
  final_store acked s = final_store acked' s.
Proof. now rewrite !final_store_spec. Qed.

(** X5. A run never writes anything but the identifier of a default-flagged
    environment of one of the loaded organizations, and never selects
    anything but the identifier of a version row of the store. *)
Theorem backFill_writes_default_ids_to_loaded_rows
    (acked : World -> nat) (s : Store) (w : UpdateQuery) :
  In w (issued (trace (fst (run acked s)))) ->
  In (criteria_id w) (version_ids s) /\
  exists o e,
    In o (organizations s) /\
    In e (Organization.appEnvironments o) /\
    AppEnvironment.isDefault e = true /\
    set_to w = AppEnvironment.id e.
Proof.
  rewrite run_trace.
  change (issued (FindOrganization :: ?l)) with (issued l). intros Hin.
  destruct (issued_passes_in _ _ _ Hin) as (Hi & o & e & Ho & He & Hs).
  split; [exact Hi|]. exists o, e.
  destruct (Array_find_some_first _ _ _ He) as (pre & post & Hsplit & _ & Hd).
  repeat split; auto. rewrite Hsplit. apply in_elt.
Qed.

Lemma backFill_writes_default_ids_to_loaded_rows_witness :
  In "V3" (version_ids Scenario.two_tenants) /\
  exists o e,
    In o (organizations Scenario.two_tenants) /\
    In e (Organization.appEnvironments o) /\
    AppEnvironment.isDefault e = true /\
    "E1" = AppEnvironment.id e.
Proof.
  apply (backFill_writes_default_ids_to_loaded_rows
           Scenario.eager Scenario.two_tenants (mkUpdate "V3" "E1")).
  rewrite run_trace. simpl. tauto.
Defined.

(** X6. A run that fails keeps what it wrote before: when the organizations
    up to [p] have a default-flagged environment, the next one has none and
    the store has a version row, the run is rejected and every version row
    of the store is left with the default environment of [p].  The source
    undoes nothing by itself. *)
Theorem backFill_failed_run_keeps_earlier_writes
    (acked : World -> nat) (s : Store)
    (before after : list Organization.t) (p o : Organization.t)
    (e : AppEnvironment.t) :
  organizations s = (before ++ [p]) ++ o :: after ->
  Forall (fun o' => default_count o' <> 0) before ->
  productionEnvironment p = Some e ->
  default_count o = 0 ->
  all_versions s <> [] ->
  snd (run acked s) = inl TypeError_reading_id_of_undefined /\
  forall v, In v (all_versions (final_store acked s)) ->
    AppVersion.currentEnvironmentId v = Some (AppEnvironment.id e).
Proof.
  intros Horgs Hb Hp Ho Hvs.
  rewrite run_outcome, final_store_spec, Horgs, passes_app.
  destruct (issued_passes_snoc before p e (version_ids s) Hb Hp) as [Hok Hiss].
  destruct (passes (before ++ [p]) (version_ids s)) as [evs [ex|[]]];
    [discriminate|].
  cbn [fst snd] in Hiss. cbn [passes].
  apply default_count_zero in Ho. rewrite Ho.
  assert (Hne : version_ids s <> []).
  { unfold version_ids. destruct (all_versions s); [congruence|discriminate]. }
  destruct (version_ids s) as [|i ids] eqn:E; [congruence|].
  cbn [pass_events fst snd]. split; [reflexivity|].
  intros v. rewrite issued_app.
  change (issued [FindApp; ConsoleLog i]) with (@nil UpdateQuery).
  rewrite app_nil_r, Hiss, <- E. apply versions_after_last_pass.
Qed.

Lemma backFill_failed_run_keeps_earlier_writes_witness :
  snd (run Scenario.eager Scenario.missing_default) =
    inl TypeError_reading_id_of_undefined /\
  forall v,
    In v (all_versions (final_store Scenario.eager Scenario.missing_default)) ->
    AppVersion.currentEnvironmentId v = Some "E1".
Proof.
  apply (backFill_failed_run_keeps_earlier_writes
           Scenario.eager Scenario.missing_default
           [] [] Scenario.O1 Scenario.O0 Scenario.E1).
  - reflexivity.
  - apply Forall_nil.
  - reflexivity.
  - reflexivity.
  - vm_compute. discriminate.
Defined.

(** ** Properties of the resolution *)

(** X7. The resolution of line 19 yields [undefined] exactly when the
    organization has no default-flagged environment, and what it yields
    otherwise is one of the organization's own environments, flagged
    default. *)
Theorem productionEnvironment_resolves (o : Organization.t) :
  (productionEnvironment o = None <-> default_count o = 0) /\
  (forall e, productionEnvironment o = Some e <->
             first_default e (Organization.appEnvironments o)) /\
  (forall e, productionEnvironment o = Some e ->
             In e (Organization.appEnvironments o) /\
             AppEnvironment.isDefault e = true).
Proof.
  split; [symmetry; apply default_count_zero|].
  assert (Hfirst : forall e, productionEnvironment o = Some e ->
                             first_default e (Organization.appEnvironments o)).
  { intros e He.
    destruct (Array_find_some_first _ _ _ He) as (pre & post & H1 & H2 & H3).
    now exists pre, post. }
  split.
  - intros e. split; [apply Hfirst|].
    intros (pre & post & Hsplit & Hpre & Hd).
    unfold productionEnvironment. rewrite Hsplit. clear Hsplit.
    induction pre as [|x pre IH]; simpl in *.
    + now rewrite Hd.
    + apply andb_prop in Hpre as [Hx Hpre].
      apply negb_true_iff in Hx. rewrite Hx. now apply IH.
  - intros e He. destruct (Hfirst e He) as (pre & post & -> & _ & Hd).
    split; [apply in_elt|exact Hd].
Qed.

(** X8. When an organization has exactly one default-flagged environment,
    the resolution yields it: every default-flagged environment of the
    organization is the resolved one. *)
Theorem productionEnvironment_unique_default (o : Organization.t) :
  default_count o = 1 ->
  exists e,
    productionEnvironment o = Some e /\
    In e (Organization.appEnvironments o) /\
    AppEnvironment.isDefault e = true /\
    forall e', In e' (Organization.appEnvironments o) ->
               AppEnvironment.isDefault e' = true -> e' = e.
Proof.
  unfold default_count, productionEnvironment. intros Hcount.
  destruct (filter AppEnvironment.isDefault (Organization.appEnvironments o))
    as [|e [|e2 rest]] eqn:Hf; try discriminate.
  exists e. rewrite Array_find_filter_head, Hf.
  assert (Hin : In e (filter AppEnvironment.isDefault
                             (Organization.appEnvironments o)))
    by (rewrite Hf; now left).
  apply filter_In in Hin as [Hin Hd].
  repeat split; auto.
  intros e' Hin' Hd'. now apply (filter_singleton_unique _ _ _ _ Hf).
Qed.

Lemma productionEnvironment_unique_default_witness :
  exists e,
    productionEnvironment Scenario.O1 = Some e /\
    In e (Organization.appEnvironments Scenario.O1) /\
    AppEnvironment.isDefault e = true /\
    forall e', In e' (Organization.appEnvironments Scenario.O1) ->
               AppEnvironment.isDefault e' = true -> e' = e.
Proof.
  apply (productionEnvironment_unique_default Scenario.O1). reflexivity.
Defined.

(** ** Properties of the store a run leads to *)

(** X9. With no organization in the store the run completes after the one
    load of the organizations: no app is loaded, nothing is printed or
    written, and the store is left as it was, whatever versions it holds. *)
Theorem backFill_without_organizations_is_a_no_op
    (acked : World -> nat) (s : Store) :
  organizations s = [] ->
  run acked s = ({| db := s; inflight := []; trace := [FindOrganization] |},
                 inr tt) /\
  final_store acked s = s.
Proof.
  intros Horgs. unfold final_store. rewrite run_unfold, Horgs.
  unfold await_call. cbn [for_of ret fst snd].
  rewrite acknowledge_nothing by reflexivity. now split.
Qed.

Lemma backFill_without_organizations_is_a_no_op_witness :
  run Scenario.eager {| organizations := []; apps := [Scenario.A1] |} =
    ({| db := {| organizations := []; apps := [Scenario.A1] |};
        inflight := []; trace := [FindOrganization] |}, inr tt) /\
  final_store Scenario.eager {| organizations := []; apps := [Scenario.A1] |} =
    {| organizations := []; apps := [Scenario.A1] |}.
Proof.
  apply (backFill_without_organizations_is_a_no_op
           Scenario.eager {| organizations := []; apps := [Scenario.A1] |}).
  reflexivity.
Defined.

(** X10. Which tenants end up right.  When every organization has a
    default-flagged environment, the versions of the apps of an
    organization [o] all end up with the default environment of [o] exactly
    when [o] owns no version or its default environment has the identifier
    of the default environment of the last organization of the loop. *)
Theorem backFill_tenant_gets_its_default_iff
    (acked : World -> nat) (s : Store)
    (before : list Organization.t) (last o : Organization.t)
    (e eo : AppEnvironment.t) :
  organizations s = before ++ [last] ->
  Forall (fun o' => default_count o' <> 0) before ->
  productionEnvironment last = Some e ->
  productionEnvironment o = Some eo ->
  ((forall v, In v (versions_of_organization o (final_store acked s)) ->
      AppVersion.currentEnvironmentId v = Some (AppEnvironment.id eo)) <->
   versions_of_organization o s = [] \/
   AppEnvironment.id eo = AppEnvironment.id e).
Proof.
  intros Horgs Hb Hlast _.
  destruct (issued_passes_snoc before last e (version_ids s) Hb Hlast)
    as [_ Hiss].
  assert (Hall : forall v, In v (all_versions (final_store acked s)) ->
     AppVersion.currentEnvironmentId v = Some (AppEnvironment.id e)).
  { intros v. rewrite final_store_spec, Horgs, Hiss.
    apply versions_after_last_pass. }
  split.
  - intros Hown.
    destruct (versions_of_organization o s) as [|v0 vs] eqn:E; [now left|].
    right.
    assert (Hin : In (row_after (issued (fst (passes (organizations s)
                                                     (version_ids s)))) v0)
                     (versions_of_organization o (final_store acked s))).
    { rewrite final_store_spec, apply_writes_map_versions.
      rewrite versions_of_organization_map_versions, E. now left. }
    pose proof (Hown _ Hin) as H1.
    pose proof (Hall _ (in_versions_of_organization _ _ _ Hin)) as H2.
    congruence.
  - intros [Hnone|Hid] v Hv.
    + rewrite final_store_spec, apply_writes_map_versions in Hv.
      rewrite versions_of_organization_map_versions, Hnone in Hv.
      destruct Hv.
    + rewrite Hid. apply Hall. now apply in_versions_of_organization in Hv.
Qed.

Lemma backFill_tenant_gets_its_default_iff_witness :
  (forall v,
     In v (versions_of_organization Scenario.O1
             (final_store Scenario.eager Scenario.two_tenants)) ->
     AppVersion.currentEnvironmentId v = Some "E1") <->
  versions_of_organization Scenario.O1 Scenario.two_tenants = [] \/
  "E1" = "E3".
Proof.
  apply (backFill_tenant_gets_its_default_iff
           Scenario.eager Scenario.two_tenants
           [Scenario.O1] Scenario.O2 Scenario.O1 Scenario.E3 Scenario.E1).
  - reflexivity.
  - apply Forall_cons; [vm_compute; discriminate|apply Forall_nil].
  - reflexivity.
  - reflexivity.
Defined.

(** X11. The backfill overwrites: when every organization has a
    default-flagged environment and there is at least one organization,
    what the version rows held in [currentEnvironmentId] before the run
    does not matter.  Two stores that differ in that column only lead to
    the same store. *)
Theorem backFill_overwrites_previous_values
    (acked acked' : World -> nat) (s1 s2 : Store)
    (before : list Organization.t) (last : Organization.t) :
  frame s1 = frame s2 ->
  organizations s1 = before ++ [last] ->
  Forall (fun o => default_count o <> 0) (organizations s1) ->
  final_store acked s1 = final_store acked' s2.
Proof.
  intros Hfr Horgs Hall.
  pose proof (frame_organizations _ _ Hfr) as Ho.
  pose proof (frame_version_ids _ _ Hfr) as Hi.
  rewrite Horgs in Hall. apply Forall_app in Hall as [Hb Hl].
  apply Forall_inv in Hl. destruct (default_count_positive _ Hl) as [e He].
  destruct (issued_passes_snoc before last e (version_ids s1) Hb He)
    as [_ Hiss].
  assert (H1 : forall v, In v (all_versions (final_store acked s1)) ->
     AppVersion.currentEnvironmentId v = Some (AppEnvironment.id e)).
  { intros v. rewrite final_store_spec, Horgs, Hiss.
    apply versions_after_last_pass. }
  assert (H2 : forall v, In v (all_versions (final_store acked' s2)) ->
     AppVersion.currentEnvironmentId v = Some (AppEnvironment.id e)).
  { intros v. rewrite final_store_spec, <- Ho, <- Hi, Horgs, Hiss, Hi.
    apply versions_after_last_pass. }
  destruct (run_frame acked s1) as [_ Hf1].
  destruct (run_frame acked' s2) as [_ Hf2].
  assert (Hff : frame (final_store acked s1) = frame (final_store acked' s2))
    by congruence.
  apply frame_complete; [exact Hff|].
  pose proof (frame_other_columns _ _ Hff) as Hlen.
  apply (f_equal (@length _)) in Hlen. rewrite !length_map in Hlen.
  revert H1 H2 Hlen.
  generalize (all_versions (final_store acked s1)) as l1.
  generalize (all_versions (final_store acked' s2)) as l2.
  intros l2 l1. revert l2.
  induction l1 as [|v1 l1 IH]; intros [|v2 l2] H1 H2 Hlen;
    try discriminate; [reflexivity|].
  simpl. rewrite (H1 v1), (H2 v2) by now left. f_equal.
  apply IH; [intros; apply H1; now right|intros; apply H2; now right|].
  simpl in Hlen. congruence.
Qed.

Lemma backFill_overwrites_previous_values_witness :
  final_store Scenario.eager Scenario.single =
  final_store Scenario.deferred
    {| organizations := [Scenario.O1];
       apps := [App.mk "A1" "O1" "first app"
                  [AppVersion.mk "V1" "A1" "v1" (Some "E2")]] |}.
Proof.
  apply (backFill_overwrites_previous_values
           Scenario.eager Scenario.deferred Scenario.single
           {| organizations := [Scenario.O1];
              apps := [App.mk "A1" "O1" "first app"
                         [AppVersion.mk "V1" "A1" "v1" (Some "E2")]] |}
           [] Scenario.O1).
  - reflexivity.
  - reflexivity.
  - apply Forall_cons; [vm_compute; discriminate|apply Forall_nil].
Defined.
